(** * wifi-wave-simulator: the time-stepped field solver of [src/solver.js]

    A shallow embedding of the two solver classes of [src/solver.js]
    ([EMSolver2D], the model in use, and [WaveSolver2D], the scalar variant)
    and of the helpers they call, followed by the properties proved about
    them.  The file has three parts: the program, the vocabulary of the
    statements, and the lemmas and theorems.

    Numbers.  JavaScript numbers are modelled as real numbers ([R]): every
    arithmetic operation is exact, and a store into a [Float32Array] keeps
    the value stored; rounding is outside the model.  The two inputs that the
    code itself tests with [Number.isFinite] before anything else is done
    with them ([solver.speed] and the argument of [step]) have the type
    [num], which adds the three non-finite values; every other number is
    finite, so that a guard [Number.isFinite(v) ? v : d] on it is [v].
    Grid counts, indices, loop counters and the PML width are [nat] or [Z].

    Arrays and objects.  Typed arrays are lists: [get] reads a cell and [upd]
    writes one.  A write outside the array does nothing, as for a typed
    array; a read outside the array gives 0 where JavaScript gives
    [undefined] (with arrays of [nx * ny] cells the solver never reads
    outside).  A [Uint8Array] mask is a list of booleans.  An object is a
    record, an assignment to a member a function [withMember]; a property
    that may be absent is an [option], a string that may be absent is the
    empty string (both are falsy). *)

From Stdlib Require Import String Reals Lra Lia ZArith Bool Arith List.
Import ListNotations.

Open Scope R_scope.

(** ** JavaScript values and helpers *)

(** A JavaScript number that may be non-finite. *)
Inductive num : Type :=
| Finite (r : R)
| PosInfinity
| NegInfinity
| NaN.

(** [Number.isFinite]. *)
Definition isFinite (v : num) : bool :=
  match v with
  | Finite _ => true
  | _ => false
  end.

Definition Rleb (a b : R) : bool := if Rle_dec a b then true else false.
Definition Rltb (a b : R) : bool := if Rlt_dec a b then true else false.

(** [function clamp(value, min, max)]: [Math.min(max, Math.max(min, value))]. *)
Definition clamp (value lo hi : R) : R := Rmin hi (Rmax lo value).

(** The same function on integer arguments. *)
Definition clampZ (value lo hi : Z) : Z := Z.min hi (Z.max lo value).

(** [a ?? d] *)
Definition orElse {A : Type} (a : option A) (d : A) : A :=
  match a with
  | Some v => v
  | None => d
  end.

Definition TAU : R := PI * 2.
Definition SQRT2 : R := sqrt 2.

(** Typed arrays. *)
Definition get (a : list R) (i : nat) : R := nth i a 0.
Definition getb (a : list bool) (i : nat) : bool := nth i a false.

Fixpoint upd {A : Type} (a : list A) (i : nat) (v : A) : list A :=
  match a, i with
  | [], _ => []
  | _ :: t, O => v :: t
  | h :: t, S j => h :: upd t j v
  end.

(** [new Float32Array(size)], [new Uint8Array(size)] and [arr.fill(v)]. *)
Definition newArray (size : nat) : list R := repeat 0 size.
Definition newMask (size : nat) : list bool := repeat false size.
Definition fill {A : Type} (a : list A) (v : A) : list A := repeat v (length a).

(** A mask that may be [null]: [mask && mask[i]]. *)
Definition maskAt (mask : option (list bool)) (i : nat) : bool :=
  match mask with
  | Some m => getb m i
  | None => false
  end.

(** [for (let i = lo; i < hi; i += 1) body(i)] over a state [S]. *)
Definition forRange {S : Type} (lo hi : nat) (body : nat -> S -> S) (s : S) : S :=
  fold_left (fun acc i => body i acc) (seq lo (hi - lo)) s.

(** [for (const v of items) body(v)]. *)
Definition forOf {A S : Type} (items : list A) (body : A -> S -> S) (s : S) : S :=
  fold_left (fun acc v => body v acc) items s.

(** ** Configuration records ([types.js]) *)

Module Vec2.
Record t : Type := mk { x : R; y : R }.
End Vec2.

Module Grid.
Record t : Type := mk { nx : R; ny : R }.
End Grid.

Module Domain.
Record t : Type := mk {
    worldSize : Vec2.t;
    grid : Grid.t;
    origin : Vec2.t
  }.
End Domain.

Module SolverSettings.
Record t : Type := mk {
    speed : num;
    attenuation : option R
  }.
End SolverSettings.

Module SolverConfig.
Record t : Type := mk {
    domain : Domain.t;
    solver : SolverSettings.t;
    avgTau : option R;
    cfl : option R;
    pmlWidth : option Z
  }.
End SolverConfig.

(** The configuration [createSolverFromState] passes: [{ domain, solver }]. *)
Definition configOf (domain : Domain.t) (solver : SolverSettings.t) : SolverConfig.t :=
  SolverConfig.mk domain solver None None None.

(** ** Pieces of the constructors, shared by both classes *)

(** [Math.max(2, Math.floor(n))] *)
Definition gridCount (n : R) : nat := Z.to_nat (Z.max 2 (Zfloor n)).

(** [size / Math.max(1, n - 1)] *)
Definition cellSize (size : R) (n : nat) : R := size / Rmax 1 (INR n - 1).

(** [Number.isFinite(solver.speed) ? solver.speed : 1] *)
Definition rawSpeed (s : SolverSettings.t) : R :=
  match SolverSettings.speed s with
  | Finite r => r
  | _ => 1
  end.

(** [(cfl * minCell) / (waveSpeed * Math.SQRT2)] *)
Definition timeStep (cfl minCell waveSpeed : R) : R :=
  (cfl * minCell) / (waveSpeed * SQRT2).

(** The usable PML width.  [nx] and [ny] are integers here, so
    [Math.floor(Math.min(nx, ny) * 0.5)] is the integer quotient by 2. *)
Definition usablePmlWidth (cfg : SolverConfig.t) (nx ny : nat) : nat :=
  let maxPmlWidth := (Z.of_nat (Nat.min nx ny) / 2 - 1)%Z in
  let requestedPmlWidth := clampZ (orElse (SolverConfig.pmlWidth cfg) 24%Z) 16 32 in
  Z.to_nat (Z.max 0 (Z.min requestedPmlWidth maxPmlWidth)).

(** ** The absorbing boundary profile *)

(** [Math.min(i, n - 1 - i)]: the distance of sample [i] to the nearest edge. *)
Definition edgeDist (i n : nat) : nat := Nat.min i (n - 1 - i).

(** [dist < width ? (width - dist) / width : 0] *)
Definition ramp (dist width : nat) : R :=
  if (dist <? width)%nat then (INR width - INR dist) / INR width else 0.

(** [function buildPmlSigma(nx, ny, width, dx, dy, waveSpeed)] *)
Definition buildPmlSigma (nx ny width : nat) (dx dy waveSpeed : R) : option (list R) :=
  if (width <=? 0)%nat then None
  else
    let p := 3%nat in
    let targetReflection := 1e-6 in
    let thickness := INR width * Rmin dx dy in
    let sigmaMax := ((INR p + 1) * ln (1 / targetReflection) * waveSpeed) / (2 * thickness) in
    Some (forRange 0 ny (fun y sigma =>
            let rampY := ramp (edgeDist y ny) width in
            forRange 0 nx (fun x sigma =>
              let rampX := ramp (edgeDist x nx) width in
              let sigmaVal := sigmaMax * (rampX ^ p + rampY ^ p) in
              upd sigma (y * nx + x) sigmaVal) sigma)
          (newArray (nx * ny))).

(** [function buildPmlMask(nx, ny, width)] *)
Definition buildPmlMask (nx ny width : nat) : option (list bool) :=
  if (width <=? 0)%nat then None
  else
    Some (forRange 0 ny (fun y mask =>
            let distY := edgeDist y ny in
            forRange 0 nx (fun x mask =>
              let distX := edgeDist x nx in
              if (distX <? width)%nat || (distY <? width)%nat
              then upd mask (y * nx + x) true
              else mask) mask)
          (newMask (nx * ny))).

(** ** Sources *)

(** A [SourceObject] of the editor, with the fields the solver reads.  A
    string field that is absent is the empty string (both are falsy). *)
Module SourceObject.
Record t : Type := mk {
    active : bool;
    position : Vec2.t;
    amplitude : R;
    phase : R;
    frequency : R;
    waveform : string;
    pulseWidth : option R;
    pulseDelay : option R;
    injection : string;
    excite : string;
    polarizationAngle : option R
  }.
End SourceObject.

(** An entry of [this.sources], as [setSources] builds it. *)
Module Source.
Record t : Type := mk {
    index : nat;
    amplitude : R;
    phase : R;
    frequency : R;
    waveform : string;
    pulseWidth : R;
    pulseDelay : R;
    injection : string;
    excite : string;
    polarizationAngle : R
  }.
End Source.

(** [s || d] on strings. *)
Definition orString (s d : string) : string :=
  if String.eqb s EmptyString then d else s.

(** [Math.round(v)] *)
Definition round (v : R) : Z := Zfloor (v + 0.5).

(** [Math.min(n - 1, Math.max(0, Math.round(norm * (n - 1))))] *)
Definition nearestSample (norm : R) (n : nat) : nat :=
  Z.to_nat (Z.min (Z.of_nat n - 1) (Z.max 0 (round (norm * (INR n - 1))))).

(** [function indexFromWorld(position, domain, nx, ny)] (and the private
    [#indexFromWorld] of [WaveSolver2D], which has the same body). *)
Definition indexFromWorld (position : Vec2.t) (domain : Domain.t) (nx ny : nat) : nat :=
  let origin := Domain.origin domain in
  let worldSize := Domain.worldSize domain in
  let xNorm := (Vec2.x position - Vec2.x origin) / Vec2.x worldSize in
  let yNorm := (Vec2.y position - Vec2.y origin) / Vec2.y worldSize in
  let ix := nearestSample xNorm nx in
  let iy := nearestSample yNorm ny in
  (iy * nx + ix)%nat.

(** [function evalSourceSignal(source, t)].  The numeric fields are finite,
    so each [Number.isFinite(v) ? v : d] is [v]. *)
Definition evalSourceSignal (source : Source.t) (t : R) : R :=
  let f := Rmax 0 (Source.frequency source) in
  let phase := Source.phase source in
  let t0 := Source.pulseDelay source in
  let w := Rmax 1e-6 (Source.pulseWidth source) in
  let tau := t - t0 in
  let kind := orString (Source.waveform source) "cw" in
  if String.eqb kind "gaussian" then
    let env := exp (-0.5 * (tau / w) * (tau / w)) in
    env * sin (TAU * f * tau + phase)
  else if String.eqb kind "ricker" then
    let phaseShift := if Rltb 0 f then phase / (TAU * f) else 0 in
    let tt := tau + phaseShift in
    let a := PI * f * tt in
    let a2 := a * a in
    (1 - 2 * a2) * exp (- a2)
  else sin (TAU * f * t + phase).

(** ** Obstacles and the material map *)

Module Vec3.
Record t : Type := mk { x : R; y : R; z : R }.
End Vec3.

Module Size2D.
Record t : Type := mk { width : R; height : R }.
End Size2D.

Module Material.
Record t : Type := mk {
    preset : string;
    epsR : option R;
    sigma : option R
  }.
End Material.

Module Shape.
Record t : Type := mk {
    kind : string;
    center : Vec2.t;
    radius : option R;
    size : option Size2D.t;
    angles : option Vec3.t;
    material : option Material.t
  }.
End Shape.

(** What [buildMaterialGrids] returns when it returns a map. *)
Module Grids.
Record t : Type := mk {
    epsR : list R;
    sigma : list R;
    metalMask : option (list bool)
  }.
End Grids.

(** [shape.material || { preset: "drywall", epsR: 2.7, sigma: 0.02 }] *)
Definition materialOf (shape : Shape.t) : Material.t :=
  orElse (Shape.material shape) (Material.mk "drywall" (Some 2.7) (Some 0.02)).

Definition epsValOf (shape : Shape.t) : R :=
  clamp (orElse (Material.epsR (materialOf shape)) 1) 1 20.

Definition sigValOf (shape : Shape.t) : R :=
  clamp (orElse (Material.sigma (materialOf shape)) 0) 0 200.

Definition isMetalOf (shape : Shape.t) : bool :=
  String.eqb (Material.preset (materialOf shape)) "metal".

(** [clamp(Math.floor((v - o) / d), 0, n - 1)] and the same with [Math.ceil]. *)
Definition boxLo (v o d : R) (n : nat) : nat :=
  Z.to_nat (clampZ (Zfloor ((v - o) / d)) 0 (Z.of_nat n - 1)).

Definition boxHi (v o d : R) (n : nat) : nat :=
  Z.to_nat (clampZ (Zceil ((v - o) / d)) 0 (Z.of_nat n - 1)).

(** The three stores made at a cell a shape contains. *)
Definition paintCell (epsVal sigVal : R) (isMetal : bool) (idx : nat) (g : Grids.t) : Grids.t :=
  Grids.mk (upd (Grids.epsR g) idx epsVal)
           (upd (Grids.sigma g) idx sigVal)
           (match Grids.metalMask g with
            | Some m => Some (upd m idx isMetal)
            | None => None
            end).

(** The pair of loops over the bounding box of a shape of bounding radius
    [radius]: [inside dxc dyc] is the membership test of the shape and
    [paint idx] the stores made at a cell that passes it.  The same loops
    occur in [buildMaterialGrids] and in [WaveSolver2D.setBarrierFromShapes]. *)
Definition paintBox {S : Type} (origin : Vec2.t) (nx ny : nat) (dx dy : R)
    (center : Vec2.t) (radius : R) (inside : R -> R -> bool)
    (paint : nat -> S -> S) (g : S) : S :=
  let minX := Vec2.x center - radius in
  let maxX := Vec2.x center + radius in
  let minY := Vec2.y center - radius in
  let maxY := Vec2.y center + radius in
  let ix0 := boxLo minX (Vec2.x origin) dx nx in
  let ix1 := boxHi maxX (Vec2.x origin) dx nx in
  let iy0 := boxLo minY (Vec2.y origin) dy ny in
  let iy1 := boxHi maxY (Vec2.y origin) dy ny in
  forRange iy0 (iy1 + 1) (fun y g =>
    let wy := Vec2.y origin + INR y * dy in
    let dyc := wy - Vec2.y center in
    forRange ix0 (ix1 + 1) (fun x g =>
      let wx := Vec2.x origin + INR x * dx in
      let dxc := wx - Vec2.x center in
      if inside dxc dyc then paint (y * nx + x)%nat g else g) g) g.

(** [dxc * dxc + dyc * dyc <= r2] *)
Definition insideCircle (radius dxc dyc : R) : bool :=
  Rleb (dxc * dxc + dyc * dyc) (radius * radius).

(** [Math.abs(localX) <= halfW && Math.abs(localY) <= halfH] after the
    rotation into the local frame of the rectangle. *)
Definition insideRectangle (halfW halfH cosA sinA dxc dyc : R) : bool :=
  let localX := cosA * dxc + sinA * dyc in
  let localY := - sinA * dxc + cosA * dyc in
  Rleb (Rabs localX) halfW && Rleb (Rabs localY) halfH.

(** [(shape.angles?.z ?? 0) * Math.PI / 180] *)
Definition angleOf (shape : Shape.t) : R :=
  (match Shape.angles shape with
   | Some a => Vec3.z a
   | None => 0
   end * PI) / 180.

(** The loops a shape runs, if it is a circle or a rectangle of positive
    extent ([continue] otherwise): the part of the loop body that
    [buildMaterialGrids] and [WaveSolver2D.setBarrierFromShapes] have in
    common. *)
Definition rasterShape {S : Type} (origin : Vec2.t) (nx ny : nat) (dx dy : R)
    (shape : Shape.t) (paint : nat -> S -> S) (g : S) : S :=
  if String.eqb (Shape.kind shape) "circle" then
    let radius := Rmax 0 (orElse (Shape.radius shape) 0) in
    if Rleb radius 0 then g
    else paintBox origin nx ny dx dy (Shape.center shape) radius
           (insideCircle radius) paint g
  else
    match String.eqb (Shape.kind shape) "rectangle", Shape.size shape with
    | true, Some size =>
        let halfW := Size2D.width size * 0.5 in
        let halfH := Size2D.height size * 0.5 in
        if Rleb halfW 0 || Rleb halfH 0 then g
        else
          let angle := angleOf shape in
          let cosA := cos angle in
          let sinA := sin angle in
          let radius := sqrt (halfW * halfW + halfH * halfH) in
          paintBox origin nx ny dx dy (Shape.center shape) radius
            (insideRectangle halfW halfH cosA sinA) paint g
    | _, _ => g
    end.

(** One iteration of [for (const shape of shapes)] in [buildMaterialGrids]. *)
Definition paintShape (domain : Domain.t) (nx ny : nat) (dx dy : R)
    (shape : Shape.t) (g : Grids.t) : Grids.t :=
  let epsVal := epsValOf shape in
  let sigVal := sigValOf shape in
  let isMetal := isMetalOf shape in
  let g :=
    match Grids.metalMask g with
    | None => if isMetal
              then Grids.mk (Grids.epsR g) (Grids.sigma g) (Some (newMask (nx * ny)))
              else g
    | Some _ => g
    end in
  rasterShape (Domain.origin domain) nx ny dx dy shape (paintCell epsVal sigVal isMetal) g.

(** [function buildMaterialGrids(domain, nx, ny, shapes)] *)
Definition buildMaterialGrids (domain : Domain.t) (nx ny : nat) (shapes : list Shape.t)
  : option Grids.t :=
  match shapes with
  | [] => None
  | _ =>
      let epsR := fill (newArray (nx * ny)) 1 in
      let sigma := fill (newArray (nx * ny)) 0 in
      let worldSize := Domain.worldSize domain in
      let dx := cellSize (Vec2.x worldSize) nx in
      let dy := cellSize (Vec2.y worldSize) ny in
      Some (forOf shapes (paintShape domain nx ny dx dy) (Grids.mk epsR sigma None))
  end.

(** ** Fixed-step driver

    [step(deltaSeconds)] has the same body in both classes; it is written
    once, over the three members it uses. *)

Section FixedStep.
Context {S : Type}.
Variable accumulator : S -> R.
Variable withAccumulator : R -> S -> S.
Variable advance : R -> S -> S.

(** [while (this.accumulator >= dt && substepCount < this.maxSubstepsPerFrame)]:
    [remaining] is [maxSubstepsPerFrame - substepCount].  The result carries
    the final [substepCount]. *)
Fixpoint fixedSubsteps (dt : R) (remaining : nat) (substepCount : nat) (s : S) : S * nat :=
  match remaining with
  | O => (s, substepCount)
  | Datatypes.S remaining' =>
      if Rleb dt (accumulator s) then
        let s := advance dt s in
        let s := withAccumulator (accumulator s - dt) s in
        fixedSubsteps dt remaining' (substepCount + 1) s
      else (s, substepCount)
  end.

(** [step(deltaSeconds)], returning the solver together with the number of
    calls of [#advance] it made. *)
Definition fixedStep (dt : R) (maxSubstepsPerFrame : nat) (deltaSeconds : num) (s : S)
  : S * nat :=
  match deltaSeconds with
  | Finite delta =>
      if Rleb delta 0 then (s, 0%nat)
      else
        let s := withAccumulator (accumulator s + delta) s in
        let '(s, substepCount) := fixedSubsteps dt maxSubstepsPerFrame 0 s in
        if Rleb dt (accumulator s) && (maxSubstepsPerFrame <=? substepCount)%nat then
          let maxAccumulator := dt * INR maxSubstepsPerFrame in
          if Rltb maxAccumulator (accumulator s)
          then (withAccumulator maxAccumulator s, substepCount)
          else (s, substepCount)
        else (s, substepCount)
  | _ => (s, 0%nat)
  end.
End FixedStep.

(** [SolverStats] *)
Module Stats.
Record t : Type := mk {
    time : R;
    maxInstantaneous : R;
    meanInstantaneous : R
  }.
Definition zero : t := mk 0 0 0.
End Stats.

(** ** [class EMSolver2D] *)

Module EMSolver2D.

Record t : Type := mk {
  nx : nat;
  ny : nat;
  domain : Domain.t;
  dx : R;
  dy : R;
  dt : R;
  time : R;
  avgTau : R;
  solverSettings : SolverSettings.t;
  loss : R;
  mu : R;
  eps : R;
  ex : list R;
  ey : list R;
  hz : list R;
  instantaneous : list R;
  avgPower : list R;
  avgMagnitude : list R;
  sources : list Source.t;
  epsRGrid : list R;
  sigmaGrid : list R;
  metalMask : option (list bool);
  accumulator : R;
  maxSubstepsPerFrame : nat;
  stats : Stats.t;
  pmlWidth : nat;
  pmlSigma : option (list R);
  pmlMask : option (list bool)
}.

(** Assignments to members. *)
Definition withEx (a : list R) (s : t) : t :=
  mk (nx s) (ny s) (domain s) (dx s) (dy s) (dt s) (time s) (avgTau s)
     (solverSettings s) (loss s) (mu s) (eps s) a (ey s) (hz s)
     (instantaneous s) (avgPower s) (avgMagnitude s) (sources s)
     (epsRGrid s) (sigmaGrid s) (metalMask s) (accumulator s)
     (maxSubstepsPerFrame s) (stats s) (pmlWidth s) (pmlSigma s) (pmlMask s).

Definition withEy (a : list R) (s : t) : t :=
  mk (nx s) (ny s) (domain s) (dx s) (dy s) (dt s) (time s) (avgTau s)
     (solverSettings s) (loss s) (mu s) (eps s) (ex s) a (hz s)
     (instantaneous s) (avgPower s) (avgMagnitude s) (sources s)
     (epsRGrid s) (sigmaGrid s) (metalMask s) (accumulator s)
     (maxSubstepsPerFrame s) (stats s) (pmlWidth s) (pmlSigma s) (pmlMask s).

Definition withHz (a : list R) (s : t) : t :=
  mk (nx s) (ny s) (domain s) (dx s) (dy s) (dt s) (time s) (avgTau s)
     (solverSettings s) (loss s) (mu s) (eps s) (ex s) (ey s) a
     (instantaneous s) (avgPower s) (avgMagnitude s) (sources s)
     (epsRGrid s) (sigmaGrid s) (metalMask s) (accumulator s)
     (maxSubstepsPerFrame s) (stats s) (pmlWidth s) (pmlSigma s) (pmlMask s).

Definition withInstantaneous (a : list R) (s : t) : t :=
  mk (nx s) (ny s) (domain s) (dx s) (dy s) (dt s) (time s) (avgTau s)
     (solverSettings s) (loss s) (mu s) (eps s) (ex s) (ey s) (hz s)
     a (avgPower s) (avgMagnitude s) (sources s)
     (epsRGrid s) (sigmaGrid s) (metalMask s) (accumulator s)
     (maxSubstepsPerFrame s) (stats s) (pmlWidth s) (pmlSigma s) (pmlMask s).

Definition withAvgPower (a : list R) (s : t) : t :=
  mk (nx s) (ny s) (domain s) (dx s) (dy s) (dt s) (time s) (avgTau s)
     (solverSettings s) (loss s) (mu s) (eps s) (ex s) (ey s) (hz s)
     (instantaneous s) a (avgMagnitude s) (sources s)
     (epsRGrid s) (sigmaGrid s) (metalMask s) (accumulator s)
     (maxSubstepsPerFrame s) (stats s) (pmlWidth s) (pmlSigma s) (pmlMask s).

Definition withAvgMagnitude (a : list R) (s : t) : t :=
  mk (nx s) (ny s) (domain s) (dx s) (dy s) (dt s) (time s) (avgTau s)
     (solverSettings s) (loss s) (mu s) (eps s) (ex s) (ey s) (hz s)
     (instantaneous s) (avgPower s) a (sources s)
     (epsRGrid s) (sigmaGrid s) (metalMask s) (accumulator s)
     (maxSubstepsPerFrame s) (stats s) (pmlWidth s) (pmlSigma s) (pmlMask s).

Definition withTime (v : R) (s : t) : t :=
  mk (nx s) (ny s) (domain s) (dx s) (dy s) (dt s) v (avgTau s)
     (solverSettings s) (loss s) (mu s) (eps s) (ex s) (ey s) (hz s)
     (instantaneous s) (avgPower s) (avgMagnitude s) (sources s)
     (epsRGrid s) (sigmaGrid s) (metalMask s) (accumulator s)
     (maxSubstepsPerFrame s) (stats s) (pmlWidth s) (pmlSigma s) (pmlMask s).

Definition withAccumulator (v : R) (s : t) : t :=
  mk (nx s) (ny s) (domain s) (dx s) (dy s) (dt s) (time s) (avgTau s)
     (solverSettings s) (loss s) (mu s) (eps s) (ex s) (ey s) (hz s)
     (instantaneous s) (avgPower s) (avgMagnitude s) (sources s)
     (epsRGrid s) (sigmaGrid s) (metalMask s) v
     (maxSubstepsPerFrame s) (stats s) (pmlWidth s) (pmlSigma s) (pmlMask s).

Definition withStats (v : Stats.t) (s : t) : t :=
  mk (nx s) (ny s) (domain s) (dx s) (dy s) (dt s) (time s) (avgTau s)
     (solverSettings s) (loss s) (mu s) (eps s) (ex s) (ey s) (hz s)
     (instantaneous s) (avgPower s) (avgMagnitude s) (sources s)
     (epsRGrid s) (sigmaGrid s) (metalMask s) (accumulator s)
     (maxSubstepsPerFrame s) v (pmlWidth s) (pmlSigma s) (pmlMask s).

Definition withSources (v : list Source.t) (s : t) : t :=
  mk (nx s) (ny s) (domain s) (dx s) (dy s) (dt s) (time s) (avgTau s)
     (solverSettings s) (loss s) (mu s) (eps s) (ex s) (ey s) (hz s)
     (instantaneous s) (avgPower s) (avgMagnitude s) v
     (epsRGrid s) (sigmaGrid s) (metalMask s) (accumulator s)
     (maxSubstepsPerFrame s) (stats s) (pmlWidth s) (pmlSigma s) (pmlMask s).

Definition withMaterials (epsR sigma : list R) (metal : option (list bool)) (s : t) : t :=
  mk (nx s) (ny s) (domain s) (dx s) (dy s) (dt s) (time s) (avgTau s)
     (solverSettings s) (loss s) (mu s) (eps s) (ex s) (ey s) (hz s)
     (instantaneous s) (avgPower s) (avgMagnitude s) (sources s)
     epsR sigma metal (accumulator s)
     (maxSubstepsPerFrame s) (stats s) (pmlWidth s) (pmlSigma s) (pmlMask s).

(** [clamp(rawSpeed, 0.05, 50)] *)
Definition waveSpeedOf (cfg : SolverConfig.t) : R :=
  clamp (rawSpeed (SolverConfig.solver cfg)) 0.05 50.

(** [constructor(config)] *)
Definition new (config : SolverConfig.t) : t :=
  let domain := SolverConfig.domain config in
  let solver := SolverConfig.solver config in
  let avgTau := orElse (SolverConfig.avgTau config) 0.35 in
  let cfl := orElse (SolverConfig.cfl config) 0.45 in
  let nx := gridCount (Grid.nx (Domain.grid domain)) in
  let ny := gridCount (Grid.ny (Domain.grid domain)) in
  let dx := cellSize (Vec2.x (Domain.worldSize domain)) nx in
  let dy := cellSize (Vec2.y (Domain.worldSize domain)) ny in
  let minCell := Rmin dx dy in
  let waveSpeed := waveSpeedOf config in
  let dt := timeStep cfl minCell waveSpeed in
  let size := (nx * ny)%nat in
  let usablePmlWidth := usablePmlWidth config nx ny in
  {| nx := nx;
     ny := ny;
     domain := domain;
     dx := dx;
     dy := dy;
     dt := dt;
     time := 0;
     avgTau := Rmax 0.05 avgTau;
     solverSettings := solver;
     loss := clamp (orElse (SolverSettings.attenuation solver) 0) 0 5;
     mu := 1;
     eps := 1 / (waveSpeed * waveSpeed);
     ex := newArray size;
     ey := newArray size;
     hz := newArray size;
     instantaneous := newArray size;
     avgPower := newArray size;
     avgMagnitude := newArray size;
     sources := [];
     epsRGrid := fill (newArray size) 1;
     sigmaGrid := fill (newArray size) 0;
     metalMask := None;
     accumulator := 0;
     maxSubstepsPerFrame := 8;
     stats := Stats.zero;
     pmlWidth := usablePmlWidth;
     pmlSigma := buildPmlSigma nx ny usablePmlWidth dx dy waveSpeed;
     pmlMask := buildPmlMask nx ny usablePmlWidth |}.

(** The entry [setSources] makes for one active source. *)
Definition sourceEntry (s : t) (source : SourceObject.t) : Source.t :=
  {| Source.index := indexFromWorld (SourceObject.position source) (domain s) (nx s) (ny s);
     Source.amplitude := SourceObject.amplitude source;
     Source.phase := SourceObject.phase source;
     Source.frequency := SourceObject.frequency source;
     Source.waveform := orString (SourceObject.waveform source) "cw";
     Source.pulseWidth := orElse (SourceObject.pulseWidth source) 0.4;
     Source.pulseDelay := orElse (SourceObject.pulseDelay source) 0;
     Source.injection := orString (SourceObject.injection source) "soft";
     Source.excite := orString (SourceObject.excite source) "hz";
     Source.polarizationAngle := orElse (SourceObject.polarizationAngle source) 0 |}.

(** [setSources(sources)] *)
Definition setSources (sources : list SourceObject.t) (s : t) : t :=
  withSources (map (sourceEntry s) (filter SourceObject.active sources)) s.

(** [setBarrierFromShapes(shapes)] *)
Definition setBarrierFromShapes (shapes : list Shape.t) (s : t) : t :=
  match buildMaterialGrids (domain s) (nx s) (ny s) shapes with
  | None => withMaterials (fill (epsRGrid s) 1) (fill (sigmaGrid s) 0) None s
  | Some grids =>
      withMaterials (Grids.epsR grids) (Grids.sigma grids) (Grids.metalMask grids) s
  end.

(** [reset()] *)
Definition reset (s : t) : t :=
  let s := withTime 0 s in
  let s := withAccumulator 0 s in
  let s := withStats (Stats.mk 0 (Stats.maxInstantaneous (stats s))
                                 (Stats.meanInstantaneous (stats s))) s in
  let s := withStats (Stats.mk (Stats.time (stats s)) 0
                                 (Stats.meanInstantaneous (stats s))) s in
  let s := withStats (Stats.mk (Stats.time (stats s))
                                 (Stats.maxInstantaneous (stats s)) 0) s in
  let s := withEx (fill (ex s) 0) s in
  let s := withEy (fill (ey s) 0) s in
  let s := withHz (fill (hz s) 0) s in
  let s := withInstantaneous (fill (instantaneous s) 0) s in
  let s := withAvgPower (fill (avgPower s) 0) s in
  withAvgMagnitude (fill (avgMagnitude s) 0) s.

(** *** [#advance(dt)]

    The method is one body; it is written here as the sequence of its
    blocks, each named after the comment that opens it in the source. *)

(** [(sigma ? sigma[idx] : 0) + sigmaMat + loss] *)
Definition sigmaEAt (s : t) (idx : nat) : R :=
  (match pmlSigma s with
   | Some sigma => get sigma idx
   | None => 0
   end) + get (sigmaGrid s) idx + loss s.

(** "PEC-like metal: zero fields in metal region" *)
Definition zeroMetal (s : t) : t :=
  match metalMask s with
  | Some metal =>
      forRange 0 (length metal) (fun i s =>
        if getb metal i then
          let s := withEx (upd (ex s) i 0) s in
          let s := withEy (upd (ey s) i 0) s in
          withHz (upd (hz s) i 0) s
        else s) s
  | None => s
  end.

(** The value stored into [hz[idx]] by the Hz update. *)
Definition hzStencil (dt : R) (s : t) (idx : nat) : R :=
  let invDx := 1 / Rmax 1e-9 (dx s) in
  let invDy := 1 / Rmax 1e-9 (dy s) in
  let mu := mu s in
  let epsBase := eps s in
  let dtOverMu := dt / mu in
  let dEx_dy := (get (ex s) (idx + nx s) - get (ex s) idx) * invDy in
  let dEy_dx := (get (ey s) (idx + 1) - get (ey s) idx) * invDx in
  let curlE := dEx_dy - dEy_dx in
  let epsCell := epsBase * get (epsRGrid s) idx in
  let sigmaE := sigmaEAt s idx in
  let sigmaM := sigmaE * (mu / epsCell) in
  let denom := 1 + (sigmaM * dt) / (2 * mu) in
  let ch1 := (1 - (sigmaM * dt) / (2 * mu)) / denom in
  let ch2 := dtOverMu / denom in
  ch1 * get (hz s) idx + ch2 * curlE.

(** "Update Hz from curl(E) with matched (approx) magnetic conductivity
    near boundaries." *)
Definition updateHz (dt : R) (s : t) : t :=
  forRange 0 (ny s - 1) (fun y s =>
    let row := (y * nx s)%nat in
    forRange 0 (nx s - 1) (fun x s =>
      let idx := (row + x)%nat in
      if maskAt (metalMask s) idx then s
      else withHz (upd (hz s) idx (hzStencil dt s idx)) s) s) s.

(** "Source injection into Hz (soft source)." *)
Definition legacySignal (source : Source.t) (t : R) : R :=
  Source.amplitude source *
  sin (TAU * Source.frequency source * t + Source.phase source).

Definition injectHz (s : t) : t :=
  match sources s with
  | [] => s
  | _ =>
      let t := time s in
      forOf (sources s) (fun source s =>
        let signal := legacySignal source t in
        withHz (upd (hz s) (Source.index source)
                    (get (hz s) (Source.index source) + signal)) s) s
  end.

(** The values stored into [ex[idx]] and [ey[idx]] by the E update. *)
Definition ce1At (dt : R) (s : t) (idx : nat) : R :=
  let epsCell := eps s * get (epsRGrid s) idx in
  let sigmaE := sigmaEAt s idx in
  let denom := 1 + (sigmaE * dt) / (2 * epsCell) in
  (1 - (sigmaE * dt) / (2 * epsCell)) / denom.

Definition ce2At (dt : R) (s : t) (idx : nat) : R :=
  let epsCell := eps s * get (epsRGrid s) idx in
  let dtOverEps := dt / epsCell in
  let sigmaE := sigmaEAt s idx in
  let denom := 1 + (sigmaE * dt) / (2 * epsCell) in
  dtOverEps / denom.

Definition exStencil (dt : R) (s : t) (idx : nat) : R :=
  let invDy := 1 / Rmax 1e-9 (dy s) in
  let dHz_dy := (get (hz s) idx - get (hz s) (idx - nx s)) * invDy in
  ce1At dt s idx * get (ex s) idx + ce2At dt s idx * dHz_dy.

Definition eyStencil (dt : R) (s : t) (idx : nat) : R :=
  let invDx := 1 / Rmax 1e-9 (dx s) in
  let dHz_dx := (get (hz s) idx - get (hz s) (idx - 1)) * invDx in
  ce1At dt s idx * get (ey s) idx - ce2At dt s idx * dHz_dx.

(** "Update Ex, Ey from curl(H) with electric conductivity." *)
Definition updateE (dt : R) (s : t) : t :=
  forRange 1 (ny s - 1) (fun y s =>
    let row := (y * nx s)%nat in
    forRange 1 (nx s - 1) (fun x s =>
      let idx := (row + x)%nat in
      if maskAt (metalMask s) idx then s
      else
        let vx := exStencil dt s idx in
        let vy := eyStencil dt s idx in
        let s := withEx (upd (ex s) idx vx) s in
        withEy (upd (ey s) idx vy) s) s) s.

(** One iteration of the loop of "Sources: inject into selected field
    (Hz / Ex / Ey / rotated E)." *)
Definition injectOne (t : R) (source : Source.t) (s : EMSolver2D.t) : EMSolver2D.t :=
  let idx := Source.index source in
  if maskAt (metalMask s) idx then s
  else if maskAt (pmlMask s) idx then s
  else
    let sv := Source.amplitude source * evalSourceSignal source t in
    let inj := Source.injection source in
    let excite := Source.excite source in
    let hard := String.eqb inj "hard" in
    if String.eqb excite "hz" then
      if hard then withHz (upd (hz s) idx sv) s
      else withHz (upd (hz s) idx (get (hz s) idx + sv)) s
    else if String.eqb excite "ex" then
      if hard then withEx (upd (ex s) idx sv) s
      else withEx (upd (ex s) idx (get (ex s) idx + sv)) s
    else if String.eqb excite "ey" then
      if hard then withEy (upd (ey s) idx sv) s
      else withEy (upd (ey s) idx (get (ey s) idx + sv)) s
    else
      let a := (Source.polarizationAngle source * PI) / 180 in
      let sx := sv * cos a in
      let sy := sv * sin a in
      if hard then
        let s := withEx (upd (ex s) idx sx) s in
        withEy (upd (ey s) idx sy) s
      else
        let s := withEx (upd (ex s) idx (get (ex s) idx + sx)) s in
        withEy (upd (ey s) idx (get (ey s) idx + sy)) s.

Definition injectSources (s : t) : t :=
  match sources s with
  | [] => s
  | _ => forOf (sources s) (injectOne (time s)) s
  end.

(** The three stores [ex[i] = 0; ey[i] = 0; hz[i] = 0]. *)
Definition zeroCell (i : nat) (s : t) : t :=
  let s := withEx (upd (ex s) i 0) s in
  let s := withEy (upd (ey s) i 0) s in
  withHz (upd (hz s) i 0) s.

(** "Hard boundary: zero fields at edges to keep things stable." *)
Definition hardBoundary (s : t) : t :=
  let s :=
    forRange 0 (nx s) (fun x s =>
      let top := x in
      let bottom := ((ny s - 1) * nx s + x)%nat in
      zeroCell bottom (zeroCell top s)) s in
  forRange 0 (ny s) (fun y s =>
    let left := (y * nx s)%nat in
    let right := (left + nx s - 1)%nat in
    zeroCell right (zeroCell left s)) s.

(** The state of the loop of "Compute magnitudes + stats": the solver and
    the locals [max] and [sum]. *)
Record magLoop : Type := mkMagLoop {
  solverOf : t;
  maxOf : R;
  sumOf : R
}.

Definition magnitudeCell (alpha : R) (i : nat) (l : magLoop) : magLoop :=
  let s := solverOf l in
  if maskAt (pmlMask s) i then
    let s := withAvgPower (upd (avgPower s) i 0) s in
    let s := withAvgMagnitude (upd (avgMagnitude s) i 0) s in
    let s := withInstantaneous (upd (instantaneous s) i 0) s in
    mkMagLoop s (maxOf l) (sumOf l)
  else
    let e2 := get (ex s) i * get (ex s) i + get (ey s) i * get (ey s) i in
    let value := sqrt e2 in
    let power := value * value in
    let nextAvg := get (avgPower s) i + alpha * (power - get (avgPower s) i) in
    let s := withAvgPower (upd (avgPower s) i nextAvg) s in
    let s := withAvgMagnitude (upd (avgMagnitude s) i (sqrt nextAvg)) s in
    let s := withInstantaneous (upd (instantaneous s) i value) s in
    mkMagLoop s (if Rltb (maxOf l) value then value else maxOf l) (sumOf l + value).

(** "Compute magnitudes + stats", then the update of the clock. *)
Definition computeStats (dt : R) (s : t) : t :=
  let alpha := Rmin 1 (dt / avgTau s) in
  let l := forRange 0 (length (instantaneous s)) (magnitudeCell alpha) (mkMagLoop s 0 0) in
  let s := solverOf l in
  let s := withTime (time s + dt) s in
  withStats (Stats.mk (time s) (maxOf l) (sumOf l / INR (length (instantaneous s)))) s.

Definition advance (dt : R) (s : t) : t :=
  computeStats dt
    (hardBoundary
       (injectSources
          (updateE dt
             (injectHz
                (updateHz dt
                   (zeroMetal s)))))).

(** [step(deltaSeconds)] and the number of advances it runs. *)
Definition stepRun (deltaSeconds : num) (s : t) : t * nat :=
  fixedStep accumulator withAccumulator advance
    (dt s) (maxSubstepsPerFrame s) deltaSeconds s.

Definition step (deltaSeconds : num) (s : t) : t := fst (stepRun deltaSeconds s).

(** [getStats()] *)
Definition getStats (s : t) : Stats.t := stats s.

End EMSolver2D.


(** ** [class WaveSolver2D] *)

Module WaveSolver2D.

Record t : Type := mk {
  nx : nat;
  ny : nat;
  dx : R;
  dy : R;
  dt : R;
  time : R;
  avgTau : R;
  domain : Domain.t;
  solverSettings : SolverSettings.t;
  loss : R;
  prev : list R;
  curr : list R;
  next : list R;
  instantaneous : list R;
  avgPower : list R;
  avgMagnitude : list R;
  sources : list Source.t;
  barrierMask : option (list bool);
  accumulator : R;
  maxSubstepsPerFrame : nat;
  stats : Stats.t;
  pmlWidth : nat;
  pmlSigma : option (list R);
  pmlMask : option (list bool);
  coeffX : R;
  coeffY : R
}.

(** Assignments to members. *)
Definition withBuffers (p c n : list R) (s : t) : t :=
  mk (nx s) (ny s) (dx s) (dy s) (dt s) (time s) (avgTau s) (domain s)
     (solverSettings s) (loss s) p c n
     (instantaneous s) (avgPower s) (avgMagnitude s) (sources s) (barrierMask s)
     (accumulator s) (maxSubstepsPerFrame s) (stats s) (pmlWidth s) (pmlSigma s)
     (pmlMask s) (coeffX s) (coeffY s).

Definition withPrev (a : list R) (s : t) : t := withBuffers a (curr s) (next s) s.
Definition withCurr (a : list R) (s : t) : t := withBuffers (prev s) a (next s) s.
Definition withNext (a : list R) (s : t) : t := withBuffers (prev s) (curr s) a s.

Definition withOutputs (inst avgP avgM : list R) (s : t) : t :=
  mk (nx s) (ny s) (dx s) (dy s) (dt s) (time s) (avgTau s) (domain s)
     (solverSettings s) (loss s) (prev s) (curr s) (next s)
     inst avgP avgM (sources s) (barrierMask s)
     (accumulator s) (maxSubstepsPerFrame s) (stats s) (pmlWidth s) (pmlSigma s)
     (pmlMask s) (coeffX s) (coeffY s).

Definition withInstantaneous (a : list R) (s : t) : t :=
  withOutputs a (avgPower s) (avgMagnitude s) s.
Definition withAvgPower (a : list R) (s : t) : t :=
  withOutputs (instantaneous s) a (avgMagnitude s) s.
Definition withAvgMagnitude (a : list R) (s : t) : t :=
  withOutputs (instantaneous s) (avgPower s) a s.

Definition withTime (v : R) (s : t) : t :=
  mk (nx s) (ny s) (dx s) (dy s) (dt s) v (avgTau s) (domain s)
     (solverSettings s) (loss s) (prev s) (curr s) (next s)
     (instantaneous s) (avgPower s) (avgMagnitude s) (sources s) (barrierMask s)
     (accumulator s) (maxSubstepsPerFrame s) (stats s) (pmlWidth s) (pmlSigma s)
     (pmlMask s) (coeffX s) (coeffY s).

Definition withAccumulator (v : R) (s : t) : t :=
  mk (nx s) (ny s) (dx s) (dy s) (dt s) (time s) (avgTau s) (domain s)
     (solverSettings s) (loss s) (prev s) (curr s) (next s)
     (instantaneous s) (avgPower s) (avgMagnitude s) (sources s) (barrierMask s)
     v (maxSubstepsPerFrame s) (stats s) (pmlWidth s) (pmlSigma s)
     (pmlMask s) (coeffX s) (coeffY s).

Definition withStats (v : Stats.t) (s : t) : t :=
  mk (nx s) (ny s) (dx s) (dy s) (dt s) (time s) (avgTau s) (domain s)
     (solverSettings s) (loss s) (prev s) (curr s) (next s)
     (instantaneous s) (avgPower s) (avgMagnitude s) (sources s) (barrierMask s)
     (accumulator s) (maxSubstepsPerFrame s) v (pmlWidth s) (pmlSigma s)
     (pmlMask s) (coeffX s) (coeffY s).

Definition withSources (v : list Source.t) (s : t) : t :=
  mk (nx s) (ny s) (dx s) (dy s) (dt s) (time s) (avgTau s) (domain s)
     (solverSettings s) (loss s) (prev s) (curr s) (next s)
     (instantaneous s) (avgPower s) (avgMagnitude s) v (barrierMask s)
     (accumulator s) (maxSubstepsPerFrame s) (stats s) (pmlWidth s) (pmlSigma s)
     (pmlMask s) (coeffX s) (coeffY s).

Definition withBarrierMask (v : option (list bool)) (s : t) : t :=
  mk (nx s) (ny s) (dx s) (dy s) (dt s) (time s) (avgTau s) (domain s)
     (solverSettings s) (loss s) (prev s) (curr s) (next s)
     (instantaneous s) (avgPower s) (avgMagnitude s) (sources s) v
     (accumulator s) (maxSubstepsPerFrame s) (stats s) (pmlWidth s) (pmlSigma s)
     (pmlMask s) (coeffX s) (coeffY s).

(** [clamp(rawSpeed, 0.05, 20)] *)
Definition waveSpeedOf (cfg : SolverConfig.t) : R :=
  clamp (rawSpeed (SolverConfig.solver cfg)) 0.05 20.

(** [constructor(config)] *)
Definition new (config : SolverConfig.t) : t :=
  let domain := SolverConfig.domain config in
  let solver := SolverConfig.solver config in
  let avgTau := orElse (SolverConfig.avgTau config) 0.35 in
  let cfl := orElse (SolverConfig.cfl config) 0.45 in
  let nx := gridCount (Grid.nx (Domain.grid domain)) in
  let ny := gridCount (Grid.ny (Domain.grid domain)) in
  let dx := cellSize (Vec2.x (Domain.worldSize domain)) nx in
  let dy := cellSize (Vec2.y (Domain.worldSize domain)) ny in
  let minCell := Rmin dx dy in
  let waveSpeed := waveSpeedOf config in
  let dt := timeStep cfl minCell waveSpeed in
  let size := (nx * ny)%nat in
  let usablePmlWidth := usablePmlWidth config nx ny in
  let invDx2 := 1 / (dx * dx) in
  let invDy2 := 1 / (dy * dy) in
  let c2 := waveSpeed * waveSpeed in
  {| nx := nx;
     ny := ny;
     dx := dx;
     dy := dy;
     dt := dt;
     time := 0;
     avgTau := Rmax 0.05 avgTau;
     domain := domain;
     solverSettings := solver;
     loss := clamp (orElse (SolverSettings.attenuation solver) 0) 0 2;
     prev := newArray size;
     curr := newArray size;
     next := newArray size;
     instantaneous := newArray size;
     avgPower := newArray size;
     avgMagnitude := newArray size;
     sources := [];
     barrierMask := None;
     accumulator := 0;
     maxSubstepsPerFrame := 8;
     stats := Stats.zero;
     pmlWidth := usablePmlWidth;
     pmlSigma := buildPmlSigma nx ny usablePmlWidth dx dy waveSpeed;
     pmlMask := buildPmlMask nx ny usablePmlWidth;
     coeffX := c2 * dt * dt * invDx2;
     coeffY := c2 * dt * dt * invDy2 |}.

(** The entry [setSources] makes for one active source.  The entries of this
    class have no [excite] and no [polarizationAngle]; the class reads
    neither. *)
Definition sourceEntry (s : t) (source : SourceObject.t) : Source.t :=
  {| Source.index := indexFromWorld (SourceObject.position source) (domain s) (nx s) (ny s);
     Source.amplitude := SourceObject.amplitude source;
     Source.phase := SourceObject.phase source;
     Source.frequency := SourceObject.frequency source;
     Source.waveform := orString (SourceObject.waveform source) "cw";
     Source.pulseWidth := orElse (SourceObject.pulseWidth source) 0.4;
     Source.pulseDelay := orElse (SourceObject.pulseDelay source) 0;
     Source.injection := orString (SourceObject.injection source) "soft";
     Source.excite := EmptyString;
     Source.polarizationAngle := 0 |}.

(** [setSources(sources)] *)
Definition setSources (sources : list SourceObject.t) (s : t) : t :=
  withSources (map (sourceEntry s) (filter SourceObject.active sources)) s.

(** [setBarrierFromShapes(shapes)] *)
Definition setBarrierFromShapes (shapes : list Shape.t) (s : t) : t :=
  match shapes with
  | [] => withBarrierMask None s
  | _ =>
      let mask := newMask (nx s * ny s) in
      let origin := Domain.origin (domain s) in
      withBarrierMask
        (Some (forOf shapes (fun shape mask =>
                 rasterShape origin (nx s) (ny s) (dx s) (dy s) shape
                   (fun idx mask => upd mask idx true) mask) mask)) s
  end.

(** [reset()] *)
Definition reset (s : t) : t :=
  let s := withPrev (fill (prev s) 0) s in
  let s := withCurr (fill (curr s) 0) s in
  let s := withNext (fill (next s) 0) s in
  let s := withInstantaneous (fill (instantaneous s) 0) s in
  let s := withAvgPower (fill (avgPower s) 0) s in
  let s := withAvgMagnitude (fill (avgMagnitude s) 0) s in
  let s := withTime 0 s in
  let s := withAccumulator 0 s in
  withStats (Stats.mk 0 0 0) s.

(** *** [#advance(dt)] *)

(** [curr[i] = 0; prev[i] = 0] *)
Definition zeroCurrPrev (i : nat) (s : t) : t :=
  let s := withCurr (upd (curr s) i 0) s in
  withPrev (upd (prev s) i 0) s.

(** The first block: the edge ring of [curr] and [prev]. *)
Definition clearEdges (s : t) : t :=
  if (1 <? nx s)%nat && (1 <? ny s)%nat then
    let s :=
      forRange 0 (nx s) (fun x s =>
        let s := zeroCurrPrev x s in
        let topIdx := ((ny s - 1) * nx s + x)%nat in
        zeroCurrPrev topIdx s) s in
    forRange 0 (ny s) (fun y s =>
      let leftIdx := (y * nx s)%nat in
      let rightIdx := (leftIdx + nx s - 1)%nat in
      let s := zeroCurrPrev leftIdx s in
      zeroCurrPrev rightIdx s) s
  else s.

(** [if (barrier)]: the barrier cells of [curr] and [prev]. *)
Definition clearBarrier (s : t) : t :=
  match barrierMask s with
  | Some barrier =>
      forRange 0 (length barrier) (fun i s =>
        if getb barrier i then zeroCurrPrev i s else s) s
  | None => s
  end.

(** The value stored into [next[idx]] by the stencil loop. *)
Definition waveStencil (dt : R) (s : t) (x y : nat) : R :=
  let rowOffset := (y * nx s)%nat in
  let upOffset := if (y =? 0)%nat then rowOffset else (rowOffset - nx s)%nat in
  let downOffset := if (y =? ny s - 1)%nat then rowOffset else (rowOffset + nx s)%nat in
  let idx := (rowOffset + x)%nat in
  let leftIdx := if (x =? 0)%nat then idx else (idx - 1)%nat in
  let rightIdx := if (x =? nx s - 1)%nat then idx else (idx + 1)%nat in
  let upIdx := (upOffset + x)%nat in
  let downIdx := (downOffset + x)%nat in
  let laplacian :=
    (get (curr s) leftIdx - 2 * get (curr s) idx + get (curr s) rightIdx) * coeffX s +
    (get (curr s) upIdx - 2 * get (curr s) idx + get (curr s) downIdx) * coeffY s in
  let sigmaVal :=
    (match pmlSigma s with
     | Some sigma => get sigma idx
     | None => 0
     end) + loss s in
  if Rltb 0 sigmaVal then
    let sdt := sigmaVal * dt * 0.5 in
    (2 * get (curr s) idx - get (prev s) idx * (1 - sdt) + laplacian) / (1 + sdt)
  else 2 * get (curr s) idx - get (prev s) idx + laplacian.

Definition stencil (dt : R) (s : t) : t :=
  forRange 0 (ny s) (fun y s =>
    forRange 0 (nx s) (fun x s =>
      withNext (upd (next s) (y * nx s + x) (waveStencil dt s x y)) s) s) s.

(** [if (this.sources.length)]: the injection into [next]. *)
Definition injectSources (s : t) : t :=
  match sources s with
  | [] => s
  | _ =>
      let t := time s in
      forOf (sources s) (fun source s =>
        let signal := Source.amplitude source * evalSourceSignal source t in
        if String.eqb (Source.injection source) "hard"
        then withNext (upd (next s) (Source.index source) signal) s
        else withNext (upd (next s) (Source.index source)
                           (get (next s) (Source.index source) + signal)) s) s
  end.

(** The barrier cells and then the edge ring of [next]. *)
Definition clearNext (s : t) : t :=
  let s :=
    match barrierMask s with
    | Some barrier =>
        forRange 0 (length barrier) (fun i s =>
          if getb barrier i then withNext (upd (next s) i 0) s else s) s
    | None => s
    end in
  if (1 <? nx s)%nat && (1 <? ny s)%nat then
    let s :=
      forRange 0 (nx s) (fun x s =>
        let s := withNext (upd (next s) x 0) s in
        withNext (upd (next s) ((ny s - 1) * nx s + x) 0) s) s in
    forRange 0 (ny s) (fun y s =>
      let s := withNext (upd (next s) (y * nx s) 0) s in
      withNext (upd (next s) (y * nx s + nx s - 1) 0) s) s
  else s.

(** [this.prev = curr; this.curr = next; this.next = prev] *)
Definition rotate (s : t) : t := withBuffers (curr s) (next s) (prev s) s.

Record magLoop : Type := mkMagLoop {
  solverOf : t;
  maxOf : R;
  sumOf : R
}.

Definition magnitudeCell (alpha : R) (i : nat) (l : magLoop) : magLoop :=
  let s := solverOf l in
  if maskAt (pmlMask s) i then
    let s := withAvgPower (upd (avgPower s) i 0) s in
    let s := withAvgMagnitude (upd (avgMagnitude s) i 0) s in
    let s := withInstantaneous (upd (instantaneous s) i 0) s in
    mkMagLoop s (maxOf l) (sumOf l)
  else
    let value := get (curr s) i in
    let absValue := Rabs value in
    let power := value * value in
    let nextAvg := get (avgPower s) i + alpha * (power - get (avgPower s) i) in
    let s := withAvgPower (upd (avgPower s) i nextAvg) s in
    let s := withAvgMagnitude (upd (avgMagnitude s) i (sqrt nextAvg)) s in
    let s := withInstantaneous (upd (instantaneous s) i absValue) s in
    mkMagLoop s (if Rltb (maxOf l) absValue then absValue else maxOf l)
              (sumOf l + absValue).

Definition computeStats (dt : R) (s : t) : t :=
  let alpha := Rmin 1 (dt / avgTau s) in
  let l := forRange 0 (length (curr s)) (magnitudeCell alpha) (mkMagLoop s 0 0) in
  let s := solverOf l in
  let s := withTime (time s + dt) s in
  withStats (Stats.mk (time s) (maxOf l) (sumOf l / INR (length (curr s)))) s.

Definition advance (dt : R) (s : t) : t :=
  computeStats dt
    (rotate
       (clearNext
          (injectSources
             (stencil dt
                (clearBarrier
                   (clearEdges s)))))).

(** [step(deltaSeconds)] and the number of advances it runs. *)
Definition stepRun (deltaSeconds : num) (s : t) : t * nat :=
  fixedStep accumulator withAccumulator advance
    (dt s) (maxSubstepsPerFrame s) deltaSeconds s.

Definition step (deltaSeconds : num) (s : t) : t := fst (stepRun deltaSeconds s).

End WaveSolver2D.

(** [function createSolverFromState(state)], on the parts of the state it
    reads. *)
Definition createSolverFromState (em2d : bool) (domain : Domain.t)
    (solver : SolverSettings.t) (sources : list SourceObject.t) (shapes : list Shape.t)
  : EMSolver2D.t + WaveSolver2D.t :=
  if em2d then
    inl (EMSolver2D.setBarrierFromShapes shapes
           (EMSolver2D.setSources sources (EMSolver2D.new (configOf domain solver))))
  else
    inr (WaveSolver2D.setBarrierFromShapes shapes
           (WaveSolver2D.setSources sources (WaveSolver2D.new (configOf domain solver)))).

(** * Vocabulary of the statements *)

(** The default domain and solver settings of [createDefaultState]. *)
Definition defaultDomain : Domain.t :=
  Domain.mk (Vec2.mk 10 20) (Grid.mk 128 128) (Vec2.mk (-5) (-10)).

Definition defaultSolver : SolverSettings.t :=
  SolverSettings.mk (Finite 1) (Some 0.1).

(** What one call [step(delta)] with a finite [delta > 0] does to the
    accumulator and the clock: [count] advances ran, none of them with less
    than [dt] in the accumulator, the loop stopped early only below [dt], and
    what is left is capped at [dt * 8]. *)
Definition cappedAdvance (dt acc time delta acc' time' : R) (count : nat) : Prop :=
  (count <= 8)%nat /\
  (forall j, (j < count)%nat -> dt <= acc + delta - INR j * dt) /\
  ((count < 8)%nat -> acc + delta - INR count * dt < dt) /\
  time' = time + INR count * dt /\
  acc' = Rmin (acc + delta - INR count * dt) (dt * 8) /\
  acc' <= dt * 8.

(** The sum of a list of numbers. *)
Definition Rsum (l : list R) : R := fold_right Rplus 0 l.

(** The entries of the source list located at cell [i]. *)
Definition sourcesAt (sources : list Source.t) (i : nat) : list Source.t :=
  filter (fun source => (Source.index source =? i)%nat) sources.

(** Cell [(x, y)] is off the outermost ring of an [nx] by [ny] grid. *)
Definition offEdge (nx ny x y : nat) : Prop :=
  (1 <= x)%nat /\ (x + 1 < nx)%nat /\ (1 <= y)%nat /\ (y + 1 < ny)%nat.

Module EMSpec.
Import EMSolver2D.

(** The members assigned by the constructor only. *)
Definition frame (s : t) :=
  (nx s, ny s, domain s, dx s, dy s, dt s, avgTau s, solverSettings s,
   loss s, mu s, eps s, maxSubstepsPerFrame s, pmlWidth s, pmlSigma s, pmlMask s).

(** The source list and the material map. *)
Definition inputs (s : t) :=
  (sources s, epsRGrid s, sigmaGrid s, metalMask s).

(** The lengths of the six arrays. *)
Definition lengths (s : t) :=
  (length (ex s), length (ey s), length (hz s),
   length (instantaneous s), length (avgPower s), length (avgMagnitude s)).

(** [s'] has the configuration, inputs, accumulator and array sizes of [s]. *)
Definition sameShape (s s' : t) : Prop :=
  frame s' = frame s /\ inputs s' = inputs s /\
  accumulator s' = accumulator s /\ lengths s' = lengths s.

(** [s'] differs from [s] at most in the contents of [ex], [ey] and [hz]. *)
Definition fieldsOnly (s s' : t) : Prop :=
  sameShape s s' /\ time s' = time s /\ stats s' = stats s /\
  instantaneous s' = instantaneous s /\ avgPower s' = avgPower s /\
  avgMagnitude s' = avgMagnitude s.

(** [s'] differs from [s] at most in the contents of the three output arrays. *)
Definition outputsOnly (s s' : t) : Prop :=
  sameShape s s' /\ time s' = time s /\ stats s' = stats s /\
  ex s' = ex s /\ ey s' = ey s /\ hz s' = hz s.

(** The state of [#advance] before "Compute magnitudes + stats". *)
Definition beforeStats (dt : R) (s : t) : t :=
  hardBoundary (injectSources (updateE dt (injectHz (updateHz dt (zeroMetal s))))).

(** The three field components at cell [i]. *)
Definition cellAt (s : t) (i : nat) : R * R * R :=
  (get (ex s) i, get (ey s) i, get (hz s) i).

(** The state of [#advance] after the Hz update, after the injection into
    Hz that follows it, and after the E update. *)
Definition afterHz (dt : R) (s : t) : t := updateHz dt (zeroMetal s).
Definition afterHzInjection (dt : R) (s : t) : t := injectHz (afterHz dt s).
Definition afterE (dt : R) (s : t) : t := updateE dt (afterHzInjection dt s).

(** All three fields are zero at every cell. *)
Definition allZero (s : t) : Prop := forall j, cellAt s j = (0, 0, 0).

(** A call of a public method, and a history of calls. *)
Inductive call : Type :=
| Step (deltaSeconds : num)
| SetSources (sources : list SourceObject.t)
| SetBarrierFromShapes (shapes : list Shape.t)
| Reset.

Definition perform (c : call) (s : t) : t :=
  match c with
  | Step deltaSeconds => step deltaSeconds s
  | SetSources sources => setSources sources s
  | SetBarrierFromShapes shapes => setBarrierFromShapes shapes s
  | Reset => reset s
  end.

Definition performAll (calls : list call) (s : t) : t :=
  fold_left (fun s c => perform c s) calls s.

End EMSpec.

Module WaveSpec.
Import WaveSolver2D.

(** The members assigned by the constructor only. *)
Definition frame (s : t) :=
  (nx s, ny s, dx s, dy s, dt s, avgTau s, domain s, solverSettings s, loss s,
   maxSubstepsPerFrame s, pmlWidth s, pmlSigma s, pmlMask s, coeffX s, coeffY s).

(** The source list and the barrier mask. *)
Definition inputs (s : t) := (sources s, barrierMask s).

(** All six arrays have [n] cells. *)
Definition sized (n : nat) (s : t) : Prop :=
  length (prev s) = n /\ length (curr s) = n /\ length (next s) = n /\
  length (instantaneous s) = n /\ length (avgPower s) = n /\
  length (avgMagnitude s) = n.

(** [s'] has the configuration, inputs, accumulator and clock of [s], and
    arrays of the size of those of [s]. *)
Definition keeps (s s' : t) : Prop :=
  frame s' = frame s /\ inputs s' = inputs s /\
  accumulator s' = accumulator s /\ time s' = time s /\
  (forall n, sized n s -> sized n s').

Inductive call : Type :=
| Step (deltaSeconds : num)
| SetSources (sources : list SourceObject.t)
| SetBarrierFromShapes (shapes : list Shape.t)
| Reset.

Definition perform (c : call) (s : t) : t :=
  match c with
  | Step deltaSeconds => step deltaSeconds s
  | SetSources sources => setSources sources s
  | SetBarrierFromShapes shapes => setBarrierFromShapes shapes s
  | Reset => reset s
  end.

Definition performAll (calls : list call) (s : t) : t :=
  fold_left (fun s c => perform c s) calls s.

End WaveSpec.

(** The state [reset] is to produce: six zero arrays of [size] cells, a zero
    clock, a zero accumulator and zero statistics. *)
Definition emZeroed (size : nat) (s : EMSolver2D.t) : Prop :=
  EMSolver2D.ex s = newArray size /\
  EMSolver2D.ey s = newArray size /\
  EMSolver2D.hz s = newArray size /\
  EMSolver2D.instantaneous s = newArray size /\
  EMSolver2D.avgPower s = newArray size /\
  EMSolver2D.avgMagnitude s = newArray size /\
  EMSolver2D.time s = 0 /\
  EMSolver2D.accumulator s = 0 /\
  EMSolver2D.stats s = Stats.zero.

Definition waveZeroed (size : nat) (s : WaveSolver2D.t) : Prop :=
  WaveSolver2D.prev s = newArray size /\
  WaveSolver2D.curr s = newArray size /\
  WaveSolver2D.next s = newArray size /\
  WaveSolver2D.instantaneous s = newArray size /\
  WaveSolver2D.avgPower s = newArray size /\
  WaveSolver2D.avgMagnitude s = newArray size /\
  WaveSolver2D.time s = 0 /\
  WaveSolver2D.accumulator s = 0 /\
  WaveSolver2D.stats s = Stats.zero.

(** The world coordinate of sample [i]: [origin + i * d]. *)
Definition sampleAt (o d : R) (i : nat) : R := o + INR i * d.

(** The membership test [buildMaterialGrids] applies to cell [(x, y)] for
    [shape]; [false] for a shape the loop skips with [continue] (a circle of
    radius [<= 0], a rectangle of width or height [<= 0]) and for a shape
    that is neither a circle nor a rectangle with a size. *)
Definition coversCell (origin : Vec2.t) (dx dy : R) (shape : Shape.t) (x y : nat) : bool :=
  let dxc := sampleAt (Vec2.x origin) dx x - Vec2.x (Shape.center shape) in
  let dyc := sampleAt (Vec2.y origin) dy y - Vec2.y (Shape.center shape) in
  if String.eqb (Shape.kind shape) "circle" then
    let radius := Rmax 0 (orElse (Shape.radius shape) 0) in
    negb (Rleb radius 0) && insideCircle radius dxc dyc
  else
    match String.eqb (Shape.kind shape) "rectangle", Shape.size shape with
    | true, Some size =>
        let halfW := Size2D.width size * 0.5 in
        let halfH := Size2D.height size * 0.5 in
        negb (Rleb halfW 0 || Rleb halfH 0) &&
        insideRectangle halfW halfH (cos (angleOf shape)) (sin (angleOf shape)) dxc dyc
    | _, _ => false
    end.

(** The last shape of the list, in list order, that covers cell [(x, y)]. *)
Definition lastCovering (origin : Vec2.t) (dx dy : R) (shapes : list Shape.t)
    (x y : nat) : option Shape.t :=
  find (fun shape => coversCell origin dx dy shape x y) (rev shapes).

(** The material of a cell: permittivity, conductivity and metal bit. *)
Definition cellOf (epsR sigma : list R) (metalMask : option (list bool)) (idx : nat)
  : R * R * bool :=
  (get epsR idx, get sigma idx, maskAt metalMask idx).


(** The arrays of a map in construction have [n] cells; a metal shape finds
    the mask allocated. *)
Definition gridsWf (n : nat) (isMetal : bool) (g : Grids.t) : Prop :=
  length (Grids.epsR g) = n /\ length (Grids.sigma g) = n /\
  match Grids.metalMask g with
  | Some m => length m = n
  | None => isMetal = false
  end.

Definition gridCell (idx : nat) (g : Grids.t) : R * R * bool :=
  cellOf (Grids.epsR g) (Grids.sigma g) (Grids.metalMask g) idx.


(** *** Small solvers used as concrete inputs

    A square grid of [n] by [n] samples over a world of side [n - 1], so that
    the cells have side 1, with unit wave speed and no attenuation; a
    continuous-wave source of amplitude 1, frequency 1 and phase [PI / 2]
    (its signal is 1 at time 0) at the sample [(1, 1)]. *)
Definition squareDomain (n : Z) : Domain.t :=
  Domain.mk (Vec2.mk (IZR (n - 1)) (IZR (n - 1))) (Grid.mk (IZR n) (IZR n)) (Vec2.mk 0 0).

Definition unitSolver : SolverSettings.t := SolverSettings.mk (Finite 1) None.

Definition squareSolver (n : Z) : EMSolver2D.t :=
  EMSolver2D.new (configOf (squareDomain n) unitSolver).

Definition cwSource (injection excite : string) : SourceObject.t :=
  {| SourceObject.active := true;
     SourceObject.position := Vec2.mk 1 1;
     SourceObject.amplitude := 1;
     SourceObject.phase := PI / 2;
     SourceObject.frequency := 1;
     SourceObject.waveform := "cw";
     SourceObject.pulseWidth := None;
     SourceObject.pulseDelay := None;
     SourceObject.injection := injection;
     SourceObject.excite := excite;
     SourceObject.polarizationAngle := None |}.

Definition sourceSolver (n : Z) (injection excite : string) : EMSolver2D.t :=
  EMSolver2D.setSources [cwSource injection excite] (squareSolver n).

(** The entry [setSources] makes of [cwSource] on a grid of [n] columns. *)
Definition cwEntry (n : nat) (injection excite : string) : Source.t :=
  Source.mk (1 * n + 1) 1 (PI / 2) 1 "cw" 0.4 0 injection excite 0.

(** A metal disc of radius 1/2 around the sample [(1, 1)]. *)
Definition smallMetalDisc : Shape.t :=
  Shape.mk "circle" (Vec2.mk 1 1) (Some 0.5) None None
    (Some (Material.mk "metal" (Some 1) (Some 0))).

(** [|E|] at cell [i]: [sqrt (Ex^2 + Ey^2)]. *)
Definition magnitudeAt (s : EMSolver2D.t) (i : nat) : R :=
  sqrt (get (EMSolver2D.ex s) i * get (EMSolver2D.ex s) i
        + get (EMSolver2D.ey s) i * get (EMSolver2D.ey s) i).

(** The cells outside the PML mask, in index order. *)
Definition nonPmlCells (s : EMSolver2D.t) : list nat :=
  filter (fun i => negb (maskAt (EMSolver2D.pmlMask s) i))
         (seq 0 (length (EMSolver2D.instantaneous s))).

(** A grid of 3 by 3 with the source at its centre and a metal disc on it. *)
Definition metalSolver : EMSolver2D.t :=
  EMSolver2D.setBarrierFromShapes [smallMetalDisc] (sourceSolver 3 "soft" "hz").

(** * Properties *)

(** ** Comparisons, arrays and loops *)

Lemma Rleb_true a b : Rleb a b = true <-> a <= b.
Proof. unfold Rleb; destruct (Rle_dec a b); split; intros; try easy. Qed.

Lemma Rleb_false a b : Rleb a b = false <-> b < a.
Proof.
  unfold Rleb; destruct (Rle_dec a b); split; intros; try easy; lra.
Qed.

Lemma Rltb_true a b : Rltb a b = true <-> a < b.
Proof. unfold Rltb; destruct (Rlt_dec a b); split; intros; try easy. Qed.

Lemma Rltb_false a b : Rltb a b = false <-> b <= a.
Proof.
  unfold Rltb; destruct (Rlt_dec a b); split; intros; try easy; lra.
Qed.

Lemma upd_length {A} (a : list A) i v : length (upd a i v) = length a.
Proof.
  revert i; induction a as [|h t IH]; intros [|i]; simpl; auto.
Qed.

Lemma nth_upd_same {A} (a : list A) i v d :
  (i < length a)%nat -> nth i (upd a i v) d = v.
Proof.
  revert i; induction a as [|h t IH]; intros [|i] Hi; simpl in *; try lia; auto.
  apply IH; lia.
Qed.

Lemma nth_upd_other {A} (a : list A) i j v d :
  i <> j -> nth j (upd a i v) d = nth j a d.
Proof.
  revert i j; induction a as [|h t IH]; intros [|i] [|j] Hij; simpl; auto; try lia.
Qed.

Lemma nth_upd {A} (a : list A) i j v d :
  nth j (upd a i v) d = if (i =? j)%nat && (j <? length a)%nat then v else nth j a d.
Proof.
  destruct (Nat.eqb_spec i j) as [->|Hne]; simpl.
  - destruct (Nat.ltb_spec j (length a)).
    + now apply nth_upd_same.
    + rewrite !nth_overflow; auto. now rewrite upd_length.
  - now apply nth_upd_other.
Qed.

Lemma get_upd a i j v :
  get (upd a i v) j = if (i =? j)%nat && (j <? length a)%nat then v else get a j.
Proof. apply nth_upd. Qed.

Lemma getb_upd a i j v :
  getb (upd a i v) j = if (i =? j)%nat && (j <? length a)%nat then v else getb a j.
Proof. apply nth_upd. Qed.

Lemma get_repeat v n i : (i < n)%nat -> get (repeat v n) i = v.
Proof. intros Hi. unfold get. now rewrite nth_repeat_lt. Qed.

Lemma get_newArray n i : get (newArray n) i = 0.
Proof.
  unfold get, newArray. destruct (Nat.ltb_spec i n).
  - now rewrite nth_repeat_lt.
  - rewrite nth_overflow; auto. now rewrite repeat_length.
Qed.

Lemma getb_newMask n i : getb (newMask n) i = false.
Proof.
  unfold getb, newMask. destruct (Nat.ltb_spec i n).
  - now rewrite nth_repeat_lt.
  - rewrite nth_overflow; auto. now rewrite repeat_length.
Qed.

Lemma fill_length {A} (a : list A) v : length (fill a v) = length a.
Proof. unfold fill. apply repeat_length. Qed.

Lemma fill_fill {A} (a : list A) v w : fill (fill a v) w = fill a w.
Proof. unfold fill. now rewrite repeat_length. Qed.

Lemma forRange_empty {S} lo hi (body : nat -> S -> S) s :
  (hi <= lo)%nat -> forRange lo hi body s = s.
Proof. intros H. unfold forRange. replace (hi - lo)%nat with 0%nat by lia. reflexivity. Qed.

Lemma forRange_last {S} lo hi (body : nat -> S -> S) s :
  (lo <= hi)%nat ->
  forRange lo (Datatypes.S hi) body s = body hi (forRange lo hi body s).
Proof.
  intros H. unfold forRange.
  replace (Datatypes.S hi - lo)%nat with (Datatypes.S (hi - lo)) by lia.
  rewrite seq_S, fold_left_app. simpl.
  now replace (lo + (hi - lo))%nat with hi by lia.
Qed.

(** A property kept by every iteration is kept by the loop. *)
Lemma forRange_inv {S} (P : S -> Prop) lo hi (body : nat -> S -> S) s :
  P s ->
  (forall i s, (lo <= i < hi)%nat -> P s -> P (body i s)) ->
  P (forRange lo hi body s).
Proof.
  intros H0 Hstep.
  destruct (Nat.le_gt_cases hi lo) as [Hle|Hlt].
  - now rewrite forRange_empty.
  - assert (Hgen : forall k, (lo <= k <= hi)%nat -> P (forRange lo k body s)).
    { induction k as [|k IH]; intros Hk.
      - rewrite forRange_empty; auto; lia.
      - destruct (Nat.eq_dec lo (Datatypes.S k)) as [->|Hne].
        + rewrite forRange_empty; auto.
        + rewrite forRange_last by lia. apply Hstep; [lia|]. apply IH; lia. }
    apply Hgen; lia.
Qed.

Lemma forOf_inv {A S} (P : S -> Prop) (items : list A) (body : A -> S -> S) s :
  P s ->
  (forall v s, In v items -> P s -> P (body v s)) ->
  P (forOf items body s).
Proof.
  unfold forOf. revert s. induction items as [|v items IH]; intros s H0 Hstep; simpl; auto.
  apply IH.
  - apply Hstep; simpl; auto.
  - intros w s' Hin. apply Hstep. simpl; auto.
Qed.

(** ** The time step fixed at construction *)


Lemma cellSize_eq size n : (2 <= n)%nat -> cellSize size n = size / (INR n - 1).
Proof.
  intros H. unfold cellSize. rewrite Rmax_right; auto.
  apply le_INR in H. simpl in H. lra.
Qed.

Lemma cellSize_pos size n : 0 < size -> 0 < cellSize size n.
Proof.
  intros H. unfold cellSize. apply Rdiv_lt_0_compat; auto.
  pose proof (Rmax_l 1 (INR n - 1)). lra.
Qed.

Lemma clamp_bounds v lo hi : lo <= hi -> lo <= clamp v lo hi <= hi.
Proof.
  intros H. unfold clamp. split.
  - apply Rmin_glb; auto. apply Rmax_l.
  - apply Rmin_l.
Qed.


Lemma sqrt2_pos : 0 < sqrt 2.
Proof. apply sqrt_lt_R0; lra. Qed.





(** ** The fixed-step driver *)

Section FixedStepFacts.
Context {S : Type}.
Variable accumulator : S -> R.
Variable time : S -> R.
Variable withAccumulator : R -> S -> S.
Variable advance : R -> S -> S.
Hypothesis acc_with : forall a s, accumulator (withAccumulator a s) = a.
Hypothesis time_with : forall a s, time (withAccumulator a s) = time s.
Hypothesis acc_advance : forall dt s, accumulator (advance dt s) = accumulator s.
Hypothesis time_advance : forall dt s, time (advance dt s) = time s + dt.

Lemma fixedSubsteps_spec dt remaining count s :
  let r := fixedSubsteps accumulator withAccumulator advance dt remaining count s in
  let n := (snd r - count)%nat in
  (count <= snd r <= count + remaining)%nat /\
  (forall j, (j < n)%nat -> dt <= accumulator s - INR j * dt) /\
  ((snd r < count + remaining)%nat -> accumulator (fst r) < dt) /\
  time (fst r) = time s + INR n * dt /\
  accumulator (fst r) = accumulator s - INR n * dt.
Proof.
  revert count s. induction remaining as [|rem IH]; intros count s; simpl.
  - replace (count - count)%nat with 0%nat by lia. simpl.
    repeat split; try lia; try lra; try (intros; lia).
  - destruct (Rleb dt (accumulator s)) eqn:Hle.
    + apply Rleb_true in Hle.
      specialize (IH (count + 1)%nat
                     (withAccumulator (accumulator (advance dt s) - dt) (advance dt s))).
      cbv zeta in IH.
      set (r := fixedSubsteps accumulator withAccumulator advance dt rem (count + 1)
                  (withAccumulator (accumulator (advance dt s) - dt) (advance dt s))) in *.
      destruct IH as (Hk & Hj & Hstop & Ht & Ha).
      rewrite acc_with, acc_advance in Hj, Ha.
      rewrite time_with, time_advance in Ht.
      assert (Hn : (snd r - count = Datatypes.S (snd r - (count + 1)))%nat) by lia.
      rewrite Hn. rewrite S_INR.
      repeat split; try lia.
      * intros [|j] Hlt.
        -- simpl. lra.
        -- specialize (Hj j ltac:(lia)). rewrite S_INR. lra.
      * intros Hlt. apply Hstop. lia.
      * rewrite Ht. ring.
      * rewrite Ha. ring.
    + apply Rleb_false in Hle. simpl.
      replace (count - count)%nat with 0%nat by lia. simpl.
      repeat split; try lia; try lra; try (intros; lia).
Qed.

Lemma fixedStep_invalid dt cap deltaSeconds s :
  isFinite deltaSeconds = false \/ (exists d, deltaSeconds = Finite d /\ d <= 0) ->
  fixedStep accumulator withAccumulator advance dt cap deltaSeconds s = (s, 0%nat).
Proof.
  intros [H|(d & -> & Hd)].
  - destruct deltaSeconds; simpl in *; auto; discriminate.
  - simpl. apply Rleb_true in Hd. now rewrite Hd.
Qed.

Lemma fixedSubsteps_inv (P : S -> Prop) dt remaining count s :
  (forall a s, P s -> P (withAccumulator a s)) ->
  (forall s, P s -> P (advance dt s)) ->
  P s -> P (fst (fixedSubsteps accumulator withAccumulator advance dt remaining count s)).
Proof.
  intros Hw Ha. revert count s.
  induction remaining as [|rem IH]; intros count s Hs; simpl; auto.
  destruct (Rleb dt (accumulator s)); simpl; auto.
Qed.

Lemma fixedStep_inv (P : S -> Prop) dt cap deltaSeconds s :
  (forall a s, P s -> P (withAccumulator a s)) ->
  (forall s, P s -> P (advance dt s)) ->
  P s -> P (fst (fixedStep accumulator withAccumulator advance dt cap deltaSeconds s)).
Proof.
  intros Hw Ha Hs. unfold fixedStep.
  destruct deltaSeconds as [d| | |]; cbn [fst]; auto.
  destruct (Rleb d 0); cbn [fst]; auto.
  pose proof (fixedSubsteps_inv P dt cap 0 (withAccumulator (accumulator s + d) s)
                Hw Ha (Hw _ _ Hs)) as H.
  destruct (fixedSubsteps accumulator withAccumulator advance dt cap 0
              (withAccumulator (accumulator s + d) s)) as [s1 k].
  cbn [fst] in H.
  destruct (Rleb dt (accumulator s1) && (cap <=? k)%nat); cbn [fst]; auto.
  destruct (Rltb (dt * INR cap) (accumulator s1)); cbn [fst]; auto.
Qed.

Lemma fixedStep_valid dt delta s :
  0 <= dt -> 0 < delta ->
  let r := fixedStep accumulator withAccumulator advance dt 8 (Finite delta) s in
  cappedAdvance dt (accumulator s) (time s) delta
    (accumulator (fst r)) (time (fst r)) (snd r).
Proof.
  intros Hdt Hdelta. unfold fixedStep.
  destruct (Rleb delta 0) eqn:Hle; [apply Rleb_true in Hle; lra|].
  pose proof (fixedSubsteps_spec dt 8 0
                (withAccumulator (accumulator s + delta) s)) as H.
  cbv zeta in H.
  destruct (fixedSubsteps accumulator withAccumulator advance dt 8 0
              (withAccumulator (accumulator s + delta) s)) as [s1 k].
  simpl fst in H; simpl snd in H.
  rewrite Nat.sub_0_r in H.
  rewrite acc_with, time_with in H.
  destruct H as (Hk & Hj & Hstop & Ht & Ha).
  assert (Hmin : Rmin (accumulator s + delta - INR k * dt) (dt * 8) <= dt * 8)
    by apply Rmin_r.
  unfold cappedAdvance.
  destruct (Rleb dt (accumulator s1) && (8 <=? k)%nat) eqn:Hcap.
  - apply andb_true_iff in Hcap. destruct Hcap as [Hge Hk8].
    apply Rleb_true in Hge. apply Nat.leb_le in Hk8.
    replace (INR 8) with 8 by (simpl; lra).
    destruct (Rltb (dt * 8) (accumulator s1)) eqn:Hgt; simpl fst; simpl snd.
    + apply Rltb_true in Hgt. rewrite acc_with, time_with.
      split; [lia|]. split; [exact Hj|]. split; [intros; lia|].
      split; [exact Ht|]. split; [|lra].
      rewrite Rmin_right; lra.
    + apply Rltb_false in Hgt.
      split; [lia|]. split; [exact Hj|]. split; [intros; lia|].
      split; [exact Ht|]. split; [|lra].
      rewrite Rmin_left; lra.
  - simpl fst; simpl snd.
    assert (Hlt : accumulator s1 < dt).
    { apply andb_false_iff in Hcap. destruct Hcap as [Hc|Hc].
      - now apply Rleb_false in Hc.
      - apply Nat.leb_gt in Hc. apply Hstop. lia. }
    split; [lia|]. split; [exact Hj|]. split; [intros; lra|].
    split; [exact Ht|]. split; [|lra].
    rewrite Rmin_left; lra.
Qed.

Lemma fixedStep_count dt deltaSeconds s :
  (snd (fixedStep accumulator withAccumulator advance dt 8 deltaSeconds s) <= 8)%nat.
Proof.
  unfold fixedStep. destruct deltaSeconds as [d| | |]; cbn [snd]; try lia.
  destruct (Rleb d 0); cbn [snd]; try lia.
  pose proof (fixedSubsteps_spec dt 8 0 (withAccumulator (accumulator s + d) s)) as H.
  cbv zeta in H.
  destruct (fixedSubsteps accumulator withAccumulator advance dt 8 0
              (withAccumulator (accumulator s + d) s)) as [s1 k].
  cbn [fst snd] in H. destruct H as (Hk & _).
  destruct (Rleb dt (accumulator s1) && (8 <=? k)%nat); cbn [snd]; try lia.
  destruct (Rltb (dt * INR 8) (accumulator s1)); cbn [snd]; lia.
Qed.

Lemma fixedStep_bounded dt deltaSeconds s :
  0 <= dt -> accumulator s <= dt * 8 ->
  accumulator (fst (fixedStep accumulator withAccumulator advance dt 8 deltaSeconds s))
  <= dt * 8.
Proof.
  intros Hdt Hacc.
  destruct deltaSeconds as [d| | |]; simpl; auto.
  destruct (Rleb d 0) eqn:Hle; simpl; auto.
  apply Rleb_false in Hle.
  pose proof (fixedStep_valid dt d s Hdt Hle) as H. cbv zeta in H.
  unfold fixedStep in H. apply Rleb_false in Hle. rewrite Hle in H.
  apply H.
Qed.
End FixedStepFacts.

(** ** What [EMSolver2D.#advance] leaves alone *)

Module EMFacts.
Import EMSolver2D EMSpec.

Lemma fieldsOnly_refl s : fieldsOnly s s.
Proof. unfold fieldsOnly, sameShape; tauto. Qed.

Lemma fieldsOnly_trans a b c : fieldsOnly a b -> fieldsOnly b c -> fieldsOnly a c.
Proof.
  unfold fieldsOnly, sameShape.
  intros [(F1 & I1 & A1 & L1) (T1 & S1 & O1 & P1 & M1)]
         [(F2 & I2 & A2 & L2) (T2 & S2 & O2 & P2 & M2)].
  repeat split; congruence.
Qed.

Lemma fieldsOnly_withEx s i v : fieldsOnly s (withEx (upd (ex s) i v) s).
Proof.
  unfold fieldsOnly, sameShape, frame, inputs, lengths; simpl.
  rewrite upd_length. tauto.
Qed.

Lemma fieldsOnly_withEy s i v : fieldsOnly s (withEy (upd (ey s) i v) s).
Proof.
  unfold fieldsOnly, sameShape, frame, inputs, lengths; simpl.
  rewrite upd_length. tauto.
Qed.

Lemma fieldsOnly_withHz s i v : fieldsOnly s (withHz (upd (hz s) i v) s).
Proof.
  unfold fieldsOnly, sameShape, frame, inputs, lengths; simpl.
  rewrite upd_length. tauto.
Qed.

Ltac fields_step :=
  repeat first
    [ apply fieldsOnly_refl
    | eapply fieldsOnly_trans; [|apply fieldsOnly_withHz]
    | eapply fieldsOnly_trans; [|apply fieldsOnly_withEy]
    | eapply fieldsOnly_trans; [|apply fieldsOnly_withEx]
    | assumption ].

Lemma fieldsOnly_zeroCell s i : fieldsOnly s (zeroCell i s).
Proof. unfold zeroCell. fields_step. Qed.

Lemma fieldsOnly_zeroMetal s : fieldsOnly s (zeroMetal s).
Proof.
  unfold zeroMetal. destruct (metalMask s) as [metal|]; [|apply fieldsOnly_refl].
  apply forRange_inv; [apply fieldsOnly_refl|].
  intros i s' _ H. destruct (getb metal i); fields_step.
Qed.

Lemma fieldsOnly_updateHz dt s : fieldsOnly s (updateHz dt s).
Proof.
  unfold updateHz.
  apply forRange_inv; [apply fieldsOnly_refl|].
  intros y s' _ H.
  apply forRange_inv; [assumption|].
  intros x s'' _ H'. destruct (maskAt _ _); fields_step.
Qed.

Lemma fieldsOnly_injectHz s : fieldsOnly s (injectHz s).
Proof.
  unfold injectHz. destruct (sources s) eqn:E; [apply fieldsOnly_refl|].
  rewrite <- E.
  apply forOf_inv; [apply fieldsOnly_refl|].
  intros v s' _ H. fields_step.
Qed.

Lemma fieldsOnly_updateE dt s : fieldsOnly s (updateE dt s).
Proof.
  unfold updateE.
  apply forRange_inv; [apply fieldsOnly_refl|].
  intros y s' _ H.
  apply forRange_inv; [assumption|].
  intros x s'' _ H'. destruct (maskAt _ _); fields_step.
Qed.

Lemma fieldsOnly_injectOne t source s : fieldsOnly s (injectOne t source s).
Proof.
  unfold injectOne.
  repeat match goal with
         | |- context [if ?b then _ else _] => destruct b
         end; fields_step.
Qed.

Lemma fieldsOnly_injectSources s : fieldsOnly s (injectSources s).
Proof.
  unfold injectSources. destruct (sources s) eqn:E; [apply fieldsOnly_refl|].
  rewrite <- E.
  apply forOf_inv; [apply fieldsOnly_refl|].
  intros v s' _ H. eapply fieldsOnly_trans; [eassumption|apply fieldsOnly_injectOne].
Qed.

Lemma fieldsOnly_hardBoundary s : fieldsOnly s (hardBoundary s).
Proof.
  unfold hardBoundary.
  apply forRange_inv.
  - apply forRange_inv; [apply fieldsOnly_refl|].
    intros x s' _ H.
    eapply fieldsOnly_trans; [|apply fieldsOnly_zeroCell].
    eapply fieldsOnly_trans; [|apply fieldsOnly_zeroCell]. assumption.
  - intros y s' _ H.
    eapply fieldsOnly_trans; [|apply fieldsOnly_zeroCell].
    eapply fieldsOnly_trans; [|apply fieldsOnly_zeroCell]. assumption.
Qed.

Lemma fieldsOnly_beforeStats dt s : fieldsOnly s (beforeStats dt s).
Proof.
  unfold beforeStats.
  eapply fieldsOnly_trans; [|apply fieldsOnly_hardBoundary].
  eapply fieldsOnly_trans; [|apply fieldsOnly_injectSources].
  eapply fieldsOnly_trans; [|apply fieldsOnly_updateE].
  eapply fieldsOnly_trans; [|apply fieldsOnly_injectHz].
  eapply fieldsOnly_trans; [|apply fieldsOnly_updateHz].
  apply fieldsOnly_zeroMetal.
Qed.

Lemma outputsOnly_magnitudeCell alpha i s l :
  outputsOnly s (solverOf l) -> outputsOnly s (solverOf (magnitudeCell alpha i l)).
Proof.
  unfold magnitudeCell, outputsOnly, sameShape, frame, inputs, lengths.
  intros H. destruct (maskAt _ _); simpl; rewrite !upd_length; exact H.
Qed.

Lemma outputsOnly_magLoop alpha n s :
  outputsOnly s (solverOf (forRange 0 n (magnitudeCell alpha) (mkMagLoop s 0 0))).
Proof.
  apply (forRange_inv (fun l => outputsOnly s (solverOf l))).
  - simpl. unfold outputsOnly, sameShape; tauto.
  - intros i l _ H. now apply outputsOnly_magnitudeCell.
Qed.

Lemma computeStats_shape dt s :
  sameShape s (computeStats dt s) /\ time (computeStats dt s) = time s + dt /\
  ex (computeStats dt s) = ex s /\ ey (computeStats dt s) = ey s /\
  hz (computeStats dt s) = hz s.
Proof.
  unfold computeStats.
  pose proof (outputsOnly_magLoop (Rmin 1 (dt / avgTau s)) (length (instantaneous s)) s) as H.
  destruct H as [(F & I & A & L) (T & S & X & Y & Z)].
  unfold sameShape, frame, inputs, lengths in *. simpl.
  rewrite T. repeat split; auto.
Qed.

Lemma advance_shape dt s :
  sameShape s (advance dt s) /\ time (advance dt s) = time s + dt.
Proof.
  unfold advance. fold (beforeStats dt s).
  destruct (fieldsOnly_beforeStats dt s) as [(F & I & A & L) (T & _)].
  destruct (computeStats_shape dt (beforeStats dt s)) as [(F' & I' & A' & L') (T' & _)].
  unfold sameShape. repeat split; congruence.
Qed.

End EMFacts.

(** ** What [WaveSolver2D.#advance] leaves alone *)

Module WaveFacts.
Import WaveSolver2D WaveSpec.

Ltac split5 := split; [|split; [|split; [|split]]].

Lemma keeps_refl s : keeps s s.
Proof. unfold keeps; tauto. Qed.

Lemma keeps_trans a b c : keeps a b -> keeps b c -> keeps a c.
Proof.
  unfold keeps. intros (F1 & I1 & A1 & T1 & S1) (F2 & I2 & A2 & T2 & S2).
  split5; try congruence. intros n Hn. apply S2, S1, Hn.
Qed.

Ltac keeps_setter :=
  unfold keeps, sized, frame, inputs;
  intros (F & I & A & T & S); simpl; split5; auto;
  intros n Hn; specialize (S n Hn); rewrite ?upd_length; tauto.

Lemma keeps_withPrev s0 s i v :
  keeps s0 s -> keeps s0 (withPrev (upd (prev s) i v) s).
Proof. keeps_setter. Qed.

Lemma keeps_withCurr s0 s i v :
  keeps s0 s -> keeps s0 (withCurr (upd (curr s) i v) s).
Proof. keeps_setter. Qed.

Lemma keeps_withNext s0 s i v :
  keeps s0 s -> keeps s0 (withNext (upd (next s) i v) s).
Proof. keeps_setter. Qed.

Ltac keeps_step :=
  repeat first
    [ assumption
    | apply keeps_withNext | apply keeps_withPrev | apply keeps_withCurr ].

Lemma keeps_zeroCurrPrev s0 s i : keeps s0 s -> keeps s0 (zeroCurrPrev i s).
Proof. intros H. unfold zeroCurrPrev. keeps_step. Qed.

Lemma keeps_clearEdges s : keeps s (clearEdges s).
Proof.
  unfold clearEdges.
  destruct ((1 <? nx s)%nat && (1 <? ny s)%nat); [|apply keeps_refl].
  apply forRange_inv.
  - apply forRange_inv; [apply keeps_refl|].
    intros x s' _ H. now apply keeps_zeroCurrPrev, keeps_zeroCurrPrev.
  - intros y s' _ H. now apply keeps_zeroCurrPrev, keeps_zeroCurrPrev.
Qed.

Lemma keeps_clearBarrier s : keeps s (clearBarrier s).
Proof.
  unfold clearBarrier.
  destruct (barrierMask s) as [barrier|]; [|apply keeps_refl].
  apply forRange_inv; [apply keeps_refl|].
  intros i s' _ H. destruct (getb barrier i); auto. now apply keeps_zeroCurrPrev.
Qed.

Lemma keeps_stencil dt s : keeps s (stencil dt s).
Proof.
  unfold stencil.
  apply forRange_inv; [apply keeps_refl|].
  intros y s' _ H. apply forRange_inv; [assumption|].
  intros x s'' _ H'. keeps_step.
Qed.

Lemma keeps_injectSources s : keeps s (injectSources s).
Proof.
  unfold injectSources.
  destruct (sources s) eqn:E; [apply keeps_refl|]. rewrite <- E.
  apply forOf_inv; [apply keeps_refl|].
  intros v s' _ H. destruct (String.eqb _ _); keeps_step.
Qed.

Lemma keeps_clearNext s : keeps s (clearNext s).
Proof.
  unfold clearNext.
  assert (H1 : keeps s
            match barrierMask s with
            | Some barrier =>
                forRange 0 (length barrier)
                  (fun i s => if getb barrier i then withNext (upd (next s) i 0) s else s) s
            | None => s
            end).
  { destruct (barrierMask s) as [barrier|]; [|apply keeps_refl].
    apply forRange_inv; [apply keeps_refl|].
    intros i s' _ H. destruct (getb barrier i); keeps_step. }
  set (s1 := match barrierMask s with Some _ => _ | None => _ end) in *.
  destruct ((1 <? nx s1)%nat && (1 <? ny s1)%nat); auto.
  apply forRange_inv.
  - apply forRange_inv; [assumption|].
    intros x s' _ H. keeps_step.
  - intros y s' _ H. keeps_step.
Qed.

Lemma keeps_rotate s : keeps s (rotate s).
Proof.
  unfold rotate, keeps, sized, frame, inputs; simpl. split5; auto; tauto.
Qed.

Lemma keeps_magnitudeCell alpha i s l :
  keeps s (solverOf l) -> keeps s (solverOf (magnitudeCell alpha i l)).
Proof.
  unfold magnitudeCell, keeps, sized, frame, inputs.
  intros (F & I & A & T & S).
  destruct (maskAt _ _); simpl; split5; auto;
    intros n Hn; specialize (S n Hn); rewrite !upd_length; tauto.
Qed.

Lemma computeStats_keeps dt s :
  frame (computeStats dt s) = frame s /\ inputs (computeStats dt s) = inputs s /\
  accumulator (computeStats dt s) = accumulator s /\
  time (computeStats dt s) = time s + dt /\
  (forall n, sized n s -> sized n (computeStats dt s)).
Proof.
  unfold computeStats.
  assert (H : keeps s (solverOf (forRange 0 (length (curr s))
                (magnitudeCell (Rmin 1 (dt / avgTau s))) (mkMagLoop s 0 0)))).
  { apply (forRange_inv (fun l => keeps s (solverOf l))).
    - simpl. apply keeps_refl.
    - intros i l _ H. now apply keeps_magnitudeCell. }
  destruct H as (F & I & A & T & S).
  unfold sized, frame, inputs in *. simpl. rewrite T. split5; auto.
Qed.

Lemma advance_keeps dt s :
  frame (advance dt s) = frame s /\ inputs (advance dt s) = inputs s /\
  accumulator (advance dt s) = accumulator s /\
  time (advance dt s) = time s + dt /\
  (forall n, sized n s -> sized n (advance dt s)).
Proof.
  unfold advance.
  assert (H : keeps s (rotate (clearNext (injectSources (stencil dt
                (clearBarrier (clearEdges s))))))).
  { eapply keeps_trans; [|apply keeps_rotate].
    eapply keeps_trans; [|apply keeps_clearNext].
    eapply keeps_trans; [|apply keeps_injectSources].
    eapply keeps_trans; [|apply keeps_stencil].
    eapply keeps_trans; [|apply keeps_clearBarrier].
    apply keeps_clearEdges. }
  destruct H as (F & I & A & T & S).
  destruct (computeStats_keeps dt
              (rotate (clearNext (injectSources (stencil dt
                 (clearBarrier (clearEdges s)))))))
    as (F' & I' & A' & T' & S').
  split5; try congruence. intros n Hn. apply S', S, Hn.
Qed.

End WaveFacts.

(** ** [step]: the sub-step cap and the rejected arguments *)

Lemma timeStep_pos cfl minCell waveSpeed :
  0 < cfl -> 0 < minCell -> 0 < waveSpeed -> 0 < timeStep cfl minCell waveSpeed.
Proof.
  intros Hc Hm Hw. unfold timeStep, SQRT2.
  apply Rdiv_lt_0_compat.
  - now apply Rmult_lt_0_compat.
  - apply Rmult_lt_0_compat; [assumption|apply sqrt2_pos].
Qed.

Lemma em_new_dt_pos domain solver :
  0 < Vec2.x (Domain.worldSize domain) -> 0 < Vec2.y (Domain.worldSize domain) ->
  0 < EMSolver2D.dt (EMSolver2D.new (configOf domain solver)).
Proof.
  intros Hx Hy. simpl. apply timeStep_pos; try lra.
  - apply Rmin_glb_lt; now apply cellSize_pos.
  - pose proof (clamp_bounds (rawSpeed solver) 0.05 50 ltac:(lra)).
    unfold EMSolver2D.waveSpeedOf. simpl. lra.
Qed.

Lemma wave_new_dt_pos domain solver :
  0 < Vec2.x (Domain.worldSize domain) -> 0 < Vec2.y (Domain.worldSize domain) ->
  0 < WaveSolver2D.dt (WaveSolver2D.new (configOf domain solver)).
Proof.
  intros Hx Hy. simpl. apply timeStep_pos; try lra.
  - apply Rmin_glb_lt; now apply cellSize_pos.
  - pose proof (clamp_bounds (rawSpeed solver) 0.05 20 ltac:(lra)).
    unfold WaveSolver2D.waveSpeedOf. simpl. lra.
Qed.

Lemma em_acc_advance dt s :
  EMSolver2D.accumulator (EMSolver2D.advance dt s) = EMSolver2D.accumulator s.
Proof. apply (EMFacts.advance_shape dt s). Qed.

Lemma em_time_advance dt s :
  EMSolver2D.time (EMSolver2D.advance dt s) = EMSolver2D.time s + dt.
Proof. apply (EMFacts.advance_shape dt s). Qed.

Lemma wave_acc_advance dt s :
  WaveSolver2D.accumulator (WaveSolver2D.advance dt s) = WaveSolver2D.accumulator s.
Proof. apply (WaveFacts.advance_keeps dt s). Qed.

Lemma wave_time_advance dt s :
  WaveSolver2D.time (WaveSolver2D.advance dt s) = WaveSolver2D.time s + dt.
Proof. apply (WaveFacts.advance_keeps dt s). Qed.

(** C7.  One call of [step] runs at most 8 advances and keeps the
    accumulator at or below [dt * 8]; with a finite positive argument each
    advance runs with at least [dt] in the accumulator and takes [dt] from
    it, the loop stops early only when less than [dt] is left, and what is
    left after the loop is clamped to [dt * 8].  Both classes. *)
Theorem step_substeps_capped
    (s : EMSolver2D.t) (w : WaveSolver2D.t) (deltaSeconds : num) (delta : R) :
  EMSolver2D.maxSubstepsPerFrame s = 8%nat -> 0 <= EMSolver2D.dt s ->
  WaveSolver2D.maxSubstepsPerFrame w = 8%nat -> 0 <= WaveSolver2D.dt w ->
  0 < delta ->
  ((snd (EMSolver2D.stepRun deltaSeconds s) <= 8)%nat /\
   (EMSolver2D.accumulator s <= EMSolver2D.dt s * 8 ->
    EMSolver2D.accumulator (EMSolver2D.step deltaSeconds s) <= EMSolver2D.dt s * 8) /\
   cappedAdvance (EMSolver2D.dt s) (EMSolver2D.accumulator s) (EMSolver2D.time s) delta
     (EMSolver2D.accumulator (EMSolver2D.step (Finite delta) s))
     (EMSolver2D.time (EMSolver2D.step (Finite delta) s))
     (snd (EMSolver2D.stepRun (Finite delta) s)))
  /\
  ((snd (WaveSolver2D.stepRun deltaSeconds w) <= 8)%nat /\
   (WaveSolver2D.accumulator w <= WaveSolver2D.dt w * 8 ->
    WaveSolver2D.accumulator (WaveSolver2D.step deltaSeconds w) <= WaveSolver2D.dt w * 8) /\
   cappedAdvance (WaveSolver2D.dt w) (WaveSolver2D.accumulator w) (WaveSolver2D.time w) delta
     (WaveSolver2D.accumulator (WaveSolver2D.step (Finite delta) w))
     (WaveSolver2D.time (WaveSolver2D.step (Finite delta) w))
     (snd (WaveSolver2D.stepRun (Finite delta) w))).
Proof.
  intros Hcap Hdt Hcap' Hdt' Hdelta.
  unfold EMSolver2D.step, EMSolver2D.stepRun, WaveSolver2D.step, WaveSolver2D.stepRun.
  rewrite Hcap, Hcap'.
  split; (split; [|split]).
  - apply fixedStep_count with (time := EMSolver2D.time); auto using em_acc_advance, em_time_advance.
  - intros Hacc.
    apply fixedStep_bounded with (time := EMSolver2D.time);
      auto using em_acc_advance, em_time_advance.
  - apply fixedStep_valid; auto using em_acc_advance, em_time_advance.
  - apply fixedStep_count with (time := WaveSolver2D.time);
      auto using wave_acc_advance, wave_time_advance.
  - intros Hacc.
    apply fixedStep_bounded with (time := WaveSolver2D.time);
      auto using wave_acc_advance, wave_time_advance.
  - apply fixedStep_valid; auto using wave_acc_advance, wave_time_advance.
Qed.

Lemma step_substeps_capped_default :
  (snd (EMSolver2D.stepRun (Finite 10)
          (EMSolver2D.new (configOf defaultDomain defaultSolver))) <= 8)%nat /\
  (snd (WaveSolver2D.stepRun (Finite 10)
          (WaveSolver2D.new (configOf defaultDomain defaultSolver))) <= 8)%nat.
Proof.
  assert (Hx : 0 < Vec2.x (Domain.worldSize defaultDomain)) by (simpl; lra).
  assert (Hy : 0 < Vec2.y (Domain.worldSize defaultDomain)) by (simpl; lra).
  pose proof (step_substeps_capped
                (EMSolver2D.new (configOf defaultDomain defaultSolver))
                (WaveSolver2D.new (configOf defaultDomain defaultSolver))
                (Finite 10) 10 eq_refl
                (Rlt_le _ _ (em_new_dt_pos defaultDomain defaultSolver Hx Hy))
                eq_refl
                (Rlt_le _ _ (wave_new_dt_pos defaultDomain defaultSolver Hx Hy))
                ltac:(lra)) as H.
  split; [exact (proj1 (proj1 H))|exact (proj1 (proj2 H))].
Defined.

(** C9.  [step] called with a non-finite, zero or negative argument runs no
    advance and returns the solver it was given, in both classes. *)
Theorem step_rejects_invalid_delta
    (s : EMSolver2D.t) (w : WaveSolver2D.t) (deltaSeconds : num) :
  isFinite deltaSeconds = false \/ (exists d, deltaSeconds = Finite d /\ d <= 0) ->
  EMSolver2D.stepRun deltaSeconds s = (s, 0%nat) /\
  EMSolver2D.step deltaSeconds s = s /\
  WaveSolver2D.stepRun deltaSeconds w = (w, 0%nat) /\
  WaveSolver2D.step deltaSeconds w = w.
Proof.
  intros H.
  unfold EMSolver2D.step, WaveSolver2D.step, EMSolver2D.stepRun, WaveSolver2D.stepRun.
  rewrite !fixedStep_invalid by assumption. auto.
Qed.

Lemma step_rejects_invalid_delta_nan :
  EMSolver2D.step NaN (EMSolver2D.new (configOf defaultDomain defaultSolver))
  = EMSolver2D.new (configOf defaultDomain defaultSolver).
Proof.
  exact (proj1 (proj2 (step_rejects_invalid_delta
                         (EMSolver2D.new (configOf defaultDomain defaultSolver))
                         (WaveSolver2D.new (configOf defaultDomain defaultSolver))
                         NaN (or_introl eq_refl)))).
Defined.

(** ** [reset] *)

Ltac em_eval :=
  cbv beta iota zeta delta
    [EMSolver2D.reset EMSolver2D.withMaterials EMSolver2D.withSources
     EMSolver2D.withAvgMagnitude EMSolver2D.withAvgPower EMSolver2D.withInstantaneous
     EMSolver2D.withHz EMSolver2D.withEy EMSolver2D.withEx EMSolver2D.withStats
     EMSolver2D.withAccumulator EMSolver2D.withTime
     EMSolver2D.nx EMSolver2D.ny EMSolver2D.domain EMSolver2D.dx EMSolver2D.dy
     EMSolver2D.dt EMSolver2D.time EMSolver2D.avgTau EMSolver2D.solverSettings
     EMSolver2D.loss EMSolver2D.mu EMSolver2D.eps EMSolver2D.ex EMSolver2D.ey
     EMSolver2D.hz EMSolver2D.instantaneous EMSolver2D.avgPower
     EMSolver2D.avgMagnitude EMSolver2D.sources EMSolver2D.epsRGrid
     EMSolver2D.sigmaGrid EMSolver2D.metalMask EMSolver2D.accumulator
     EMSolver2D.maxSubstepsPerFrame EMSolver2D.stats EMSolver2D.pmlWidth
     EMSolver2D.pmlSigma EMSolver2D.pmlMask Stats.time Stats.maxInstantaneous
     Stats.meanInstantaneous Stats.zero EMSpec.frame EMSpec.lengths EMSpec.inputs].

Ltac wave_eval :=
  cbv beta iota zeta delta
    [WaveSolver2D.reset WaveSolver2D.withBarrierMask WaveSolver2D.withSources
     WaveSolver2D.withAvgMagnitude WaveSolver2D.withAvgPower
     WaveSolver2D.withInstantaneous WaveSolver2D.withNext WaveSolver2D.withCurr
     WaveSolver2D.withPrev WaveSolver2D.withStats WaveSolver2D.withAccumulator
     WaveSolver2D.withTime WaveSolver2D.withOutputs WaveSolver2D.withBuffers
     WaveSolver2D.nx WaveSolver2D.ny WaveSolver2D.domain WaveSolver2D.dx
     WaveSolver2D.dy WaveSolver2D.dt WaveSolver2D.time WaveSolver2D.avgTau
     WaveSolver2D.solverSettings WaveSolver2D.loss WaveSolver2D.prev
     WaveSolver2D.curr WaveSolver2D.next WaveSolver2D.instantaneous
     WaveSolver2D.avgPower WaveSolver2D.avgMagnitude WaveSolver2D.sources
     WaveSolver2D.barrierMask WaveSolver2D.accumulator
     WaveSolver2D.maxSubstepsPerFrame WaveSolver2D.stats WaveSolver2D.pmlWidth
     WaveSolver2D.pmlSigma WaveSolver2D.pmlMask WaveSolver2D.coeffX
     WaveSolver2D.coeffY Stats.zero WaveSpec.frame WaveSpec.sized WaveSpec.inputs].

Lemma fill_newArray a n : length a = n -> fill a 0 = newArray n.
Proof. intros <-. reflexivity. Qed.

Lemma em_perform_configured s0 c s :
  EMSpec.frame s = EMSpec.frame s0 /\ EMSpec.lengths s = EMSpec.lengths s0 ->
  EMSpec.frame (EMSpec.perform c s) = EMSpec.frame s0 /\
  EMSpec.lengths (EMSpec.perform c s) = EMSpec.lengths s0.
Proof.
  intros Hs. destruct c as [deltaSeconds|sources|shapes|]; simpl.
  - unfold EMSolver2D.step, EMSolver2D.stepRun.
    apply (fixedStep_inv EMSolver2D.accumulator EMSolver2D.withAccumulator
             EMSolver2D.advance
             (fun s => EMSpec.frame s = EMSpec.frame s0 /\
                       EMSpec.lengths s = EMSpec.lengths s0)); auto.
    intros s' [F L].
    destruct (EMFacts.advance_shape (EMSolver2D.dt s) s') as [(F' & _ & _ & L') _].
    split; congruence.
  - exact Hs.
  - unfold EMSolver2D.setBarrierFromShapes.
    destruct (buildMaterialGrids _ _ _ _); exact Hs.
  - destruct Hs as [F L]. split; auto.
    rewrite <- L. destruct s. em_eval. now rewrite !fill_length.
Qed.

Lemma em_history_configured config calls :
  let s := EMSpec.performAll calls (EMSolver2D.new config) in
  EMSpec.frame s = EMSpec.frame (EMSolver2D.new config) /\
  EMSpec.lengths s = EMSpec.lengths (EMSolver2D.new config).
Proof.
  cbv zeta. unfold EMSpec.performAll.
  assert (H : forall s,
             EMSpec.frame s = EMSpec.frame (EMSolver2D.new config) /\
             EMSpec.lengths s = EMSpec.lengths (EMSolver2D.new config) ->
             EMSpec.frame (fold_left (fun s c => EMSpec.perform c s) calls s)
             = EMSpec.frame (EMSolver2D.new config) /\
             EMSpec.lengths (fold_left (fun s c => EMSpec.perform c s) calls s)
             = EMSpec.lengths (EMSolver2D.new config)).
  { induction calls as [|c calls IH]; intros s Hs; simpl; auto.
    apply IH. now apply em_perform_configured. }
  apply H. split; reflexivity.
Qed.

Lemma wave_perform_configured n s0 c s :
  WaveSpec.frame s = WaveSpec.frame s0 /\ WaveSpec.sized n s ->
  WaveSpec.frame (WaveSpec.perform c s) = WaveSpec.frame s0 /\
  WaveSpec.sized n (WaveSpec.perform c s).
Proof.
  intros Hs. destruct c as [deltaSeconds|sources|shapes|]; simpl.
  - unfold WaveSolver2D.step, WaveSolver2D.stepRun.
    apply (fixedStep_inv WaveSolver2D.accumulator WaveSolver2D.withAccumulator
             WaveSolver2D.advance
             (fun s => WaveSpec.frame s = WaveSpec.frame s0 /\ WaveSpec.sized n s)); auto.
    intros s' [F L].
    destruct (WaveFacts.advance_keeps (WaveSolver2D.dt s) s') as (F' & _ & _ & _ & L').
    split; [congruence|auto].
  - exact Hs.
  - unfold WaveSolver2D.setBarrierFromShapes. destruct shapes; exact Hs.
  - destruct Hs as [F L]. split; auto.
    destruct s. revert L. wave_eval. now rewrite !fill_length.
Qed.

Lemma wave_history_configured config calls :
  let s := WaveSpec.performAll calls (WaveSolver2D.new config) in
  WaveSpec.frame s = WaveSpec.frame (WaveSolver2D.new config) /\
  WaveSpec.sized (WaveSolver2D.nx s * WaveSolver2D.ny s) s.
Proof.
  cbv zeta. unfold WaveSpec.performAll.
  set (n := (WaveSolver2D.nx (WaveSolver2D.new config) *
             WaveSolver2D.ny (WaveSolver2D.new config))%nat).
  assert (H : forall s,
             WaveSpec.frame s = WaveSpec.frame (WaveSolver2D.new config) /\
             WaveSpec.sized n s ->
             WaveSpec.frame (fold_left (fun s c => WaveSpec.perform c s) calls s)
             = WaveSpec.frame (WaveSolver2D.new config) /\
             WaveSpec.sized n (fold_left (fun s c => WaveSpec.perform c s) calls s)).
  { induction calls as [|c calls IH]; intros s Hs; simpl; auto.
    apply IH. now apply wave_perform_configured. }
  destruct (H (WaveSolver2D.new config)) as [F L].
  { split; [reflexivity|]. unfold WaveSpec.sized, n. simpl.
    unfold newArray. now rewrite !repeat_length. }
  split; auto.
  assert (E : (WaveSolver2D.nx (fold_left (fun s c => WaveSpec.perform c s) calls
                                  (WaveSolver2D.new config)) *
               WaveSolver2D.ny (fold_left (fun s c => WaveSpec.perform c s) calls
                                  (WaveSolver2D.new config)))%nat = n).
  { unfold WaveSpec.frame in F. unfold n. congruence. }
  rewrite E. exact L.
Qed.

Lemma em_reset_reset s : EMSolver2D.reset (EMSolver2D.reset s) = EMSolver2D.reset s.
Proof. destruct s. em_eval. now rewrite !fill_fill. Qed.

Lemma wave_reset_reset s : WaveSolver2D.reset (WaveSolver2D.reset s) = WaveSolver2D.reset s.
Proof. destruct s. wave_eval. now rewrite !fill_fill. Qed.

Lemma em_reset_iter n s :
  Nat.iter n EMSolver2D.reset (EMSolver2D.reset s) = EMSolver2D.reset s.
Proof. induction n as [|n IH]; simpl; auto. rewrite IH. apply em_reset_reset. Qed.

Lemma wave_reset_iter n s :
  Nat.iter n WaveSolver2D.reset (WaveSolver2D.reset s) = WaveSolver2D.reset s.
Proof. induction n as [|n IH]; simpl; auto. rewrite IH. apply wave_reset_reset. Qed.

(** C10.  After any history of calls on a solver constructed from [config],
    [reset] leaves six zero arrays, a zero clock, a zero accumulator and zero
    statistics; repeating it any number of times changes nothing; and the
    solver it leaves is the freshly constructed one, given the source list
    and the material map (barrier mask) the solver had, which [reset] does
    not touch.  Both classes. *)
Theorem reset_restores_fresh_state
    (config : SolverConfig.t) (calls : list EMSpec.call)
    (wcalls : list WaveSpec.call) (n : nat) :
  (let s := EMSpec.performAll calls (EMSolver2D.new config) in
   emZeroed (EMSolver2D.nx s * EMSolver2D.ny s) (EMSolver2D.reset s) /\
   Nat.iter n EMSolver2D.reset (EMSolver2D.reset s) = EMSolver2D.reset s /\
   EMSpec.inputs (EMSolver2D.reset s) = EMSpec.inputs s /\
   EMSolver2D.reset s =
     EMSolver2D.withMaterials (EMSolver2D.epsRGrid s) (EMSolver2D.sigmaGrid s)
       (EMSolver2D.metalMask s)
       (EMSolver2D.withSources (EMSolver2D.sources s) (EMSolver2D.new config)))
  /\
  (let s := WaveSpec.performAll wcalls (WaveSolver2D.new config) in
   waveZeroed (WaveSolver2D.nx s * WaveSolver2D.ny s) (WaveSolver2D.reset s) /\
   Nat.iter n WaveSolver2D.reset (WaveSolver2D.reset s) = WaveSolver2D.reset s /\
   WaveSpec.inputs (WaveSolver2D.reset s) = WaveSpec.inputs s /\
   WaveSolver2D.reset s =
     WaveSolver2D.withBarrierMask (WaveSolver2D.barrierMask s)
       (WaveSolver2D.withSources (WaveSolver2D.sources s) (WaveSolver2D.new config))).
Proof.
  split; cbv zeta.
  - destruct (em_history_configured config calls) as [F L]. cbv zeta in F, L.
    set (s := EMSpec.performAll calls (EMSolver2D.new config)) in *.
    clearbody s.
    split; [|split; [apply em_reset_iter|split]].
    + revert F L. destruct s. unfold emZeroed. em_eval.
      unfold EMSolver2D.new, newArray. rewrite !repeat_length.
      intros F L.
      injection F as F1 F2 F3 F4 F5 F6 F7 F8 F9 F10 F11 F12 F13 F14 F15.
      injection L as L1 L2 L3 L4 L5 L6.
      subst. unfold fill. rewrite L1, L2, L3, L4, L5, L6. repeat split; reflexivity.
    + destruct s. reflexivity.
    + revert F L. destruct s. em_eval.
      unfold EMSolver2D.new, newArray. rewrite !repeat_length.
      intros F L.
      injection F as F1 F2 F3 F4 F5 F6 F7 F8 F9 F10 F11 F12 F13 F14 F15.
      injection L as L1 L2 L3 L4 L5 L6.
      subst. unfold fill. rewrite L1, L2, L3, L4, L5, L6. reflexivity.
  - destruct (wave_history_configured config wcalls) as [F L]. cbv zeta in F, L.
    set (s := WaveSpec.performAll wcalls (WaveSolver2D.new config)) in *.
    clearbody s.
    split; [|split; [apply wave_reset_iter|split]].
    + revert F L. destruct s. unfold waveZeroed. wave_eval.
      unfold WaveSolver2D.new, newArray.
      intros F (L1 & L2 & L3 & L4 & L5 & L6).
      unfold fill. rewrite L1, L2, L3, L4, L5, L6. repeat split; reflexivity.
    + destruct s. reflexivity.
    + revert F L. destruct s. wave_eval.
      unfold WaveSolver2D.new, newArray.
      intros F (L1 & L2 & L3 & L4 & L5 & L6).
      injection F as F1 F2 F3 F4 F5 F6 F7 F8 F9 F10 F11 F12 F13 F14 F15.
      subst. unfold fill. rewrite L1, L2, L3, L4, L5, L6. reflexivity.
Qed.

(** ** The accumulator over a history of calls *)

Lemma em_perform_frame c s : EMSpec.frame (EMSpec.perform c s) = EMSpec.frame s.
Proof.
  destruct c as [deltaSeconds|sources|shapes|]; simpl.
  - unfold EMSolver2D.step, EMSolver2D.stepRun.
    apply (fixedStep_inv EMSolver2D.accumulator EMSolver2D.withAccumulator
             EMSolver2D.advance (fun s' => EMSpec.frame s' = EMSpec.frame s)); auto.
    intros s' F.
    destruct (EMFacts.advance_shape (EMSolver2D.dt s) s') as [(F' & _) _].
    congruence.
  - reflexivity.
  - unfold EMSolver2D.setBarrierFromShapes.
    destruct (buildMaterialGrids _ _ _ _); reflexivity.
  - destruct s; reflexivity.
Qed.

Lemma wave_perform_frame c s : WaveSpec.frame (WaveSpec.perform c s) = WaveSpec.frame s.
Proof.
  destruct c as [deltaSeconds|sources|shapes|]; simpl.
  - unfold WaveSolver2D.step, WaveSolver2D.stepRun.
    apply (fixedStep_inv WaveSolver2D.accumulator WaveSolver2D.withAccumulator
             WaveSolver2D.advance (fun s' => WaveSpec.frame s' = WaveSpec.frame s)); auto.
    intros s' F.
    destruct (WaveFacts.advance_keeps (WaveSolver2D.dt s) s') as (F' & _).
    congruence.
  - reflexivity.
  - unfold WaveSolver2D.setBarrierFromShapes. destruct shapes; reflexivity.
  - destruct s; reflexivity.
Qed.

Lemma em_frame_step s s' :
  EMSpec.frame s' = EMSpec.frame s ->
  EMSolver2D.dt s' = EMSolver2D.dt s /\
  EMSolver2D.maxSubstepsPerFrame s' = EMSolver2D.maxSubstepsPerFrame s.
Proof. unfold EMSpec.frame. intros H. injection H. auto. Qed.

Lemma wave_frame_step s s' :
  WaveSpec.frame s' = WaveSpec.frame s ->
  WaveSolver2D.dt s' = WaveSolver2D.dt s /\
  WaveSolver2D.maxSubstepsPerFrame s' = WaveSolver2D.maxSubstepsPerFrame s.
Proof. unfold WaveSpec.frame. intros H. injection H. auto. Qed.

Lemma em_perform_accumulator c s :
  EMSolver2D.maxSubstepsPerFrame s = 8%nat -> 0 <= EMSolver2D.dt s ->
  EMSolver2D.accumulator s <= EMSolver2D.dt s * 8 ->
  EMSolver2D.accumulator (EMSpec.perform c s) <= EMSolver2D.dt s * 8.
Proof.
  intros Hm Hd Ha. destruct c as [deltaSeconds|sources|shapes|]; simpl.
  - unfold EMSolver2D.step, EMSolver2D.stepRun. rewrite Hm.
    apply fixedStep_bounded with (time := EMSolver2D.time);
      auto using em_acc_advance, em_time_advance.
  - exact Ha.
  - unfold EMSolver2D.setBarrierFromShapes.
    destruct (buildMaterialGrids _ _ _ _); exact Ha.
  - destruct s. simpl in *. lra.
Qed.

Lemma wave_perform_accumulator c s :
  WaveSolver2D.maxSubstepsPerFrame s = 8%nat -> 0 <= WaveSolver2D.dt s ->
  WaveSolver2D.accumulator s <= WaveSolver2D.dt s * 8 ->
  WaveSolver2D.accumulator (WaveSpec.perform c s) <= WaveSolver2D.dt s * 8.
Proof.
  intros Hm Hd Ha. destruct c as [deltaSeconds|sources|shapes|]; simpl.
  - unfold WaveSolver2D.step, WaveSolver2D.stepRun. rewrite Hm.
    apply fixedStep_bounded with (time := WaveSolver2D.time);
      auto using wave_acc_advance, wave_time_advance.
  - exact Ha.
  - unfold WaveSolver2D.setBarrierFromShapes. destruct shapes; exact Ha.
  - destruct s. simpl in *. lra.
Qed.

(** Every solver a history of calls leads to has the time step and the cap
    of the constructor, and at most [dt * 8] in its accumulator. *)
Lemma em_history_accumulator domain solver calls :
  0 < Vec2.x (Domain.worldSize domain) -> 0 < Vec2.y (Domain.worldSize domain) ->
  let s := EMSpec.performAll calls (EMSolver2D.new (configOf domain solver)) in
  EMSolver2D.maxSubstepsPerFrame s = 8%nat /\ 0 < EMSolver2D.dt s /\
  EMSolver2D.accumulator s <= EMSolver2D.dt s * 8.
Proof.
  intros Hx Hy. cbv zeta.
  pose proof (em_new_dt_pos domain solver Hx Hy) as Hdt.
  assert (Hm : EMSolver2D.maxSubstepsPerFrame (EMSolver2D.new (configOf domain solver))
               = 8%nat) by reflexivity.
  assert (Ha : EMSolver2D.accumulator (EMSolver2D.new (configOf domain solver))
               <= EMSolver2D.dt (EMSolver2D.new (configOf domain solver)) * 8).
  { change (EMSolver2D.accumulator (EMSolver2D.new (configOf domain solver))) with 0. lra. }
  revert Hdt Hm Ha. generalize (EMSolver2D.new (configOf domain solver)).
  unfold EMSpec.performAll.
  induction calls as [|c calls IH]; intros s Hdt Hm Ha; simpl; auto.
  destruct (em_frame_step _ _ (em_perform_frame c s)) as [Ed Em].
  apply IH.
  - now rewrite Ed.
  - now rewrite Em.
  - rewrite Ed. apply em_perform_accumulator; auto. lra.
Qed.

Lemma wave_history_accumulator domain solver calls :
  0 < Vec2.x (Domain.worldSize domain) -> 0 < Vec2.y (Domain.worldSize domain) ->
  let s := WaveSpec.performAll calls (WaveSolver2D.new (configOf domain solver)) in
  WaveSolver2D.maxSubstepsPerFrame s = 8%nat /\ 0 < WaveSolver2D.dt s /\
  WaveSolver2D.accumulator s <= WaveSolver2D.dt s * 8.
Proof.
  intros Hx Hy. cbv zeta.
  pose proof (wave_new_dt_pos domain solver Hx Hy) as Hdt.
  assert (Hm : WaveSolver2D.maxSubstepsPerFrame (WaveSolver2D.new (configOf domain solver))
               = 8%nat) by reflexivity.
  assert (Ha : WaveSolver2D.accumulator (WaveSolver2D.new (configOf domain solver))
               <= WaveSolver2D.dt (WaveSolver2D.new (configOf domain solver)) * 8).
  { change (WaveSolver2D.accumulator (WaveSolver2D.new (configOf domain solver))) with 0.
    lra. }
  revert Hdt Hm Ha. generalize (WaveSolver2D.new (configOf domain solver)).
  unfold WaveSpec.performAll.
  induction calls as [|c calls IH]; intros s Hdt Hm Ha; simpl; auto.
  destruct (wave_frame_step _ _ (wave_perform_frame c s)) as [Ed Em].
  apply IH.
  - now rewrite Ed.
  - now rewrite Em.
  - rewrite Ed. apply wave_perform_accumulator; auto. lra.
Qed.

(** ** The material map *)

Lemma cell_index_inj nx x y x' y' :
  (x < nx)%nat -> (x' < nx)%nat -> (y' * nx + x' = y * nx + x)%nat -> x' = x /\ y' = y.
Proof.
  intros Hx Hx' H.
  assert (y' = y) by nia. subst. split; lia.
Qed.

Section PaintLoops.
Context {S V : Type}.
Variable obs : S -> V.
Variable wf : S -> Prop.
Variable paint : nat -> S -> S.
Variable test : nat -> nat -> bool.
Variables (nx x y : nat) (v : V).
Hypothesis Hx : (x < nx)%nat.
Hypothesis paint_wf : forall idx s, wf s -> wf (paint idx s).
Hypothesis paint_obs : forall idx s, wf s ->
  obs (paint idx s) = if (idx =? y * nx + x)%nat then v else obs s.

Lemma paint_row ix0 ix1 y' s :
  wf s -> (ix1 <= nx)%nat ->
  let s' := forRange ix0 ix1
              (fun x' s => if test x' y' then paint (y' * nx + x') s else s) s in
  wf s' /\
  obs s' = if (y' =? y)%nat && ((ix0 <=? x)%nat && (x <? ix1)%nat) && test x y
           then v else obs s.
Proof.
  intros Hwf Hix. cbv zeta.
  induction ix1 as [|k IH].
  - rewrite forRange_empty by lia. split; auto.
    replace (x <? 0)%nat with false by (symmetry; apply Nat.ltb_ge; lia).
    now rewrite andb_false_r, andb_false_r.
  - destruct (Nat.le_gt_cases ix0 k) as [Hle|Hgt].
    + rewrite forRange_last by assumption.
      destruct (IH ltac:(lia)) as [Hwf' Hobs]. clear IH.
      set (s1 := forRange ix0 k _ s) in *.
      destruct (test k y') eqn:Ht.
      * split; [now apply paint_wf|].
        rewrite paint_obs by assumption.
        destruct (Nat.eqb_spec (y' * nx + k) (y * nx + x)) as [E|NE].
        -- apply cell_index_inj in E; try lia. destruct E as [-> ->].
           rewrite Nat.eqb_refl, Ht.
           replace (ix0 <=? x)%nat with true by (symmetry; apply Nat.leb_le; lia).
           replace (x <? Datatypes.S x)%nat with true by (symmetry; apply Nat.ltb_lt; lia).
           reflexivity.
        -- rewrite Hobs.
           destruct (Nat.eqb_spec y' y) as [->|Hy]; simpl; auto.
           assert (k <> x) by (intros ->; apply NE; reflexivity).
           destruct (Nat.leb_spec ix0 x); simpl; auto.
           destruct (Nat.ltb_spec x k); destruct (Nat.ltb_spec x (Datatypes.S k));
             simpl; auto; lia.
      * split; auto. rewrite Hobs.
        destruct (Nat.eqb_spec y' y) as [->|Hy]; simpl; auto.
        destruct (Nat.leb_spec ix0 x); simpl; auto.
        destruct (Nat.ltb_spec x k); destruct (Nat.ltb_spec x (Datatypes.S k));
          simpl; auto; try lia.
        assert (k = x) by lia. subst. now rewrite Ht.
    + rewrite forRange_empty by lia. split; auto.
      replace ((ix0 <=? x)%nat && (x <? Datatypes.S k)%nat) with false.
      * now rewrite andb_false_r.
      * symmetry. apply andb_false_iff.
        destruct (Nat.leb_spec ix0 x); auto. right. apply Nat.ltb_ge. lia.
Qed.

Lemma paint_rows ix0 ix1 iy0 iy1 s :
  wf s -> (ix1 <= nx)%nat ->
  let s' := forRange iy0 iy1
              (fun y' s =>
                 forRange ix0 ix1
                   (fun x' s => if test x' y' then paint (y' * nx + x') s else s) s) s in
  wf s' /\
  obs s' = if ((iy0 <=? y)%nat && (y <? iy1)%nat) && ((ix0 <=? x)%nat && (x <? ix1)%nat)
              && test x y
           then v else obs s.
Proof.
  intros Hwf Hix. cbv zeta.
  induction iy1 as [|k IH].
  - rewrite forRange_empty by lia. split; auto.
    replace (y <? 0)%nat with false by (symmetry; apply Nat.ltb_ge; lia).
    now rewrite andb_false_r.
  - destruct (Nat.le_gt_cases iy0 k) as [Hle|Hgt].
    + rewrite forRange_last by assumption.
      destruct IH as [Hwf' Hobs].
      set (s1 := forRange iy0 k _ s) in *.
      destruct (paint_row ix0 ix1 k s1 Hwf' Hix) as [Hwf2 Hobs2].
      split; auto. rewrite Hobs2, Hobs.
      destruct (Nat.eqb_spec k y) as [->|Hk].
      * replace (iy0 <=? y)%nat with true by (symmetry; apply Nat.leb_le; lia).
        replace (y <? Datatypes.S y)%nat with true by (symmetry; apply Nat.ltb_lt; lia).
        replace (y <? y)%nat with false by (symmetry; apply Nat.ltb_ge; lia).
        simpl. destruct ((ix0 <=? x)%nat && (x <? ix1)%nat && test x y); auto.
      * simpl.
        destruct (Nat.leb_spec iy0 y); simpl; auto.
        destruct (Nat.ltb_spec y k); destruct (Nat.ltb_spec y (Datatypes.S k));
          simpl; auto; lia.
    + rewrite forRange_empty by lia. split; auto.
      replace ((iy0 <=? y)%nat && (y <? Datatypes.S k)%nat) with false; auto.
      symmetry. apply andb_false_iff.
      destruct (Nat.leb_spec iy0 y); auto. right. apply Nat.ltb_ge. lia.
Qed.
End PaintLoops.


(** ** Geometry of the bounding box *)

Lemma boxLo_le v o d n i :
  0 < d -> v <= sampleAt o d i -> (boxLo v o d n <= i)%nat.
Proof.
  intros Hd Hv. unfold boxLo, clampZ, sampleAt in *.
  assert (Hq : (v - o) / d <= INR i).
  { apply Rmult_le_reg_r with d; auto.
    unfold Rdiv. rewrite Rmult_assoc, Rinv_l by lra. lra. }
  assert (Hf : (Zfloor ((v - o) / d) <= Z.of_nat i)%Z).
  { apply le_IZR. rewrite <- INR_IZR_INZ.
    pose proof (Zfloor_bound ((v - o) / d)). lra. }
  lia.
Qed.

Lemma boxHi_ge v o d n i :
  0 < d -> (i < n)%nat -> sampleAt o d i <= v -> (i <= boxHi v o d n)%nat.
Proof.
  intros Hd Hi Hv. unfold boxHi, clampZ, sampleAt in *.
  assert (Hq : INR i <= (v - o) / d).
  { apply Rmult_le_reg_r with d; auto.
    unfold Rdiv. rewrite Rmult_assoc, Rinv_l by lra. lra. }
  assert (Hf : (Z.of_nat i <= Zceil ((v - o) / d))%Z).
  { apply le_IZR. rewrite <- INR_IZR_INZ.
    pose proof (Zceil_bound ((v - o) / d)). lra. }
  lia.
Qed.

Lemma boxHi_lt v o d n : (0 < n)%nat -> (boxHi v o d n < n)%nat.
Proof. intros Hn. unfold boxHi, clampZ. lia. Qed.

Lemma insideCircle_bound radius dxc dyc :
  0 <= radius -> insideCircle radius dxc dyc = true ->
  - radius <= dxc <= radius /\ - radius <= dyc <= radius.
Proof.
  intros Hr H. apply Rleb_true in H. split; split; nra.
Qed.

Lemma insideRectangle_bound halfW halfH a dxc dyc :
  0 <= halfW -> 0 <= halfH ->
  insideRectangle halfW halfH (cos a) (sin a) dxc dyc = true ->
  let radius := sqrt (halfW * halfW + halfH * halfH) in
  - radius <= dxc <= radius /\ - radius <= dyc <= radius.
Proof.
  intros Hw Hh H. unfold insideRectangle in H.
  apply andb_true_iff in H. destruct H as [H1 H2].
  apply Rleb_true in H1, H2.
  set (lx := cos a * dxc + sin a * dyc) in *.
  set (ly := - sin a * dxc + cos a * dyc) in *.
  assert (Hlx : lx * lx <= halfW * halfW).
  { pose proof (Rabs_pos lx). replace (lx * lx) with (Rabs lx * Rabs lx).
    - nra.
    - unfold Rabs. destruct (Rcase_abs lx); ring. }
  assert (Hly : ly * ly <= halfH * halfH).
  { pose proof (Rabs_pos ly). replace (ly * ly) with (Rabs ly * Rabs ly).
    - nra.
    - unfold Rabs. destruct (Rcase_abs ly); ring. }
  assert (Hrot : dxc * dxc + dyc * dyc = lx * lx + ly * ly).
  { unfold lx, ly. pose proof (sin2_cos2 a) as Hsc. unfold Rsqr in Hsc.
    replace ((cos a * dxc + sin a * dyc) * (cos a * dxc + sin a * dyc) +
             (- sin a * dxc + cos a * dyc) * (- sin a * dxc + cos a * dyc))
      with ((sin a * sin a + cos a * cos a) * (dxc * dxc + dyc * dyc)) by ring.
    rewrite Hsc. ring. }
  intros radius.
  assert (Hr : 0 <= radius) by apply sqrt_pos.
  assert (Hr2 : radius * radius = halfW * halfW + halfH * halfH).
  { unfold radius. apply sqrt_sqrt. nra. }
  split; split; nra.
Qed.

(** ** One shape *)

Section PaintBox.
Context {S V : Type}.
Variable obs : S -> V.
Variable wf : S -> Prop.
Variable paint : nat -> S -> S.
Variables (nx ny x y : nat) (v : V).
Hypothesis Hx : (x < nx)%nat.
Hypothesis Hy : (y < ny)%nat.
Hypothesis paint_wf : forall idx s, wf s -> wf (paint idx s).
Hypothesis paint_obs : forall idx s, wf s ->
  obs (paint idx s) = if (idx =? y * nx + x)%nat then v else obs s.
Variables (origin center : Vec2.t) (dx dy radius : R) (inside : R -> R -> bool).
Hypothesis Hdx : 0 < dx.
Hypothesis Hdy : 0 < dy.
Hypothesis inside_bound : forall dxc dyc, inside dxc dyc = true ->
  - radius <= dxc <= radius /\ - radius <= dyc <= radius.

Lemma paintBox_cell s :
  wf s ->
  let s' := paintBox origin nx ny dx dy center radius inside paint s in
  wf s' /\
  obs s' = if inside (sampleAt (Vec2.x origin) dx x - Vec2.x center)
                     (sampleAt (Vec2.y origin) dy y - Vec2.y center)
           then v else obs s.
Proof.
  intros Hwf. unfold paintBox.
  set (ix0 := boxLo (Vec2.x center - radius) (Vec2.x origin) dx nx).
  set (ix1 := boxHi (Vec2.x center + radius) (Vec2.x origin) dx nx).
  set (iy0 := boxLo (Vec2.y center - radius) (Vec2.y origin) dy ny).
  set (iy1 := boxHi (Vec2.y center + radius) (Vec2.y origin) dy ny).
  pose proof (paint_rows obs wf paint
                (fun x' y' => inside (sampleAt (Vec2.x origin) dx x' - Vec2.x center)
                                     (sampleAt (Vec2.y origin) dy y' - Vec2.y center))
                nx x y v Hx paint_wf paint_obs ix0 (ix1 + 1) iy0 (iy1 + 1) s Hwf) as H.
  assert (Hix1 : (ix1 + 1 <= nx)%nat).
  { pose proof (boxHi_lt (Vec2.x center + radius) (Vec2.x origin) dx nx ltac:(lia)).
    unfold ix1. lia. }
  specialize (H Hix1). cbv zeta in H. unfold sampleAt in H.
  destruct H as [Hwf' Hobs]. split; [exact Hwf'|].
  unfold sampleAt. rewrite Hobs.
  destruct (inside (Vec2.x origin + INR x * dx - Vec2.x center)
                   (Vec2.y origin + INR y * dy - Vec2.y center)) eqn:Hin.
  - apply inside_bound in Hin. destruct Hin as [Hbx Hby].
    assert ((ix0 <= x)%nat) by (apply boxLo_le; auto; unfold sampleAt; lra).
    assert ((x <= ix1)%nat) by (apply boxHi_ge; auto; unfold sampleAt; lra).
    assert ((iy0 <= y)%nat) by (apply boxLo_le; auto; unfold sampleAt; lra).
    assert ((y <= iy1)%nat) by (apply boxHi_ge; auto; unfold sampleAt; lra).
    replace (iy0 <=? y)%nat with true by (symmetry; apply Nat.leb_le; lia).
    replace (y <? iy1 + 1)%nat with true by (symmetry; apply Nat.ltb_lt; lia).
    replace (ix0 <=? x)%nat with true by (symmetry; apply Nat.leb_le; lia).
    replace (x <? ix1 + 1)%nat with true by (symmetry; apply Nat.ltb_lt; lia).
    reflexivity.
  - now rewrite andb_false_r.
Qed.
End PaintBox.

Section RasterShape.
Context {S V : Type}.
Variable obs : S -> V.
Variable wf : S -> Prop.
Variable paint : nat -> S -> S.
Variables (nx ny x y : nat) (v : V).
Hypothesis Hx : (x < nx)%nat.
Hypothesis Hy : (y < ny)%nat.
Hypothesis paint_wf : forall idx s, wf s -> wf (paint idx s).
Hypothesis paint_obs : forall idx s, wf s ->
  obs (paint idx s) = if (idx =? y * nx + x)%nat then v else obs s.
Variables (origin : Vec2.t) (dx dy : R).
Hypothesis Hdx : 0 < dx.
Hypothesis Hdy : 0 < dy.

Lemma rasterShape_cell shape s :
  wf s ->
  let s' := rasterShape origin nx ny dx dy shape paint s in
  wf s' /\
  obs s' = if coversCell origin dx dy shape x y then v else obs s.
Proof.
  intros Hwf. unfold rasterShape, coversCell.
  destruct (String.eqb (Shape.kind shape) "circle").
  - set (radius := Rmax 0 (orElse (Shape.radius shape) 0)).
    destruct (Rleb radius 0) eqn:Hr; simpl; auto.
    apply (paintBox_cell obs wf paint nx ny x y v); auto.
    intros dxc dyc. apply insideCircle_bound. apply Rmax_l.
  - destruct (String.eqb (Shape.kind shape) "rectangle"); simpl; auto.
    destruct (Shape.size shape) as [size|]; simpl; auto.
    set (halfW := Size2D.width size * 0.5).
    set (halfH := Size2D.height size * 0.5).
    destruct (Rleb halfW 0) eqn:Hw; simpl; auto.
    destruct (Rleb halfH 0) eqn:Hh; simpl; auto.
    apply Rleb_false in Hw, Hh.
    apply (paintBox_cell obs wf paint nx ny x y v); auto.
    intros dxc dyc. apply insideRectangle_bound; lra.
Qed.
End RasterShape.

(** ** The material map *)

Lemma paintCell_wf n epsVal sigVal isMetal idx g :
  gridsWf n isMetal g -> gridsWf n isMetal (paintCell epsVal sigVal isMetal idx g).
Proof.
  unfold gridsWf, paintCell. intros (H1 & H2 & H3). simpl.
  destruct (Grids.metalMask g); rewrite !upd_length; auto.
Qed.

Lemma paintCell_cell n epsVal sigVal isMetal target idx g :
  (target < n)%nat -> gridsWf n isMetal g ->
  gridCell target (paintCell epsVal sigVal isMetal idx g)
  = if (idx =? target)%nat then (epsVal, sigVal, isMetal) else gridCell target g.
Proof.
  intros Ht (H1 & H2 & H3). unfold gridCell, cellOf, paintCell. simpl.
  rewrite !get_upd, H1, H2.
  destruct (Nat.eqb_spec idx target) as [->|Hne]; simpl.
  - replace (target <? n)%nat with true by (symmetry; apply Nat.ltb_lt; lia).
    destruct (Grids.metalMask g) as [m|]; simpl.
    + rewrite getb_upd, Nat.eqb_refl, H3.
      replace (target <? n)%nat with true by (symmetry; apply Nat.ltb_lt; lia).
      reflexivity.
    + now rewrite H3.
  - destruct (Grids.metalMask g) as [m|]; simpl; auto.
    rewrite getb_upd.
    replace (idx =? target)%nat with false by (symmetry; apply Nat.eqb_neq; lia).
    reflexivity.
Qed.

Lemma paintShape_cell domain nx ny dx dy shape x y g b :
  0 < dx -> 0 < dy -> (x < nx)%nat -> (y < ny)%nat ->
  gridsWf (nx * ny) b g ->
  let g' := paintShape domain nx ny dx dy shape g in
  gridsWf (nx * ny) false g' /\
  gridCell (y * nx + x) g'
  = if coversCell (Domain.origin domain) dx dy shape x y
    then (epsValOf shape, sigValOf shape, isMetalOf shape)
    else gridCell (y * nx + x) g.
Proof.
  intros Hdx Hdy Hx Hy Hwf. unfold paintShape.
  set (g1 := match Grids.metalMask g with
             | Some _ => g
             | None => if isMetalOf shape
                       then Grids.mk (Grids.epsR g) (Grids.sigma g) (Some (newMask (nx * ny)))
                       else g
             end).
  assert (Hwf1 : gridsWf (nx * ny) (isMetalOf shape) g1).
  { destruct Hwf as (H1 & H2 & H3). unfold g1, gridsWf.
    destruct (Grids.metalMask g) as [m|] eqn:Em.
    - rewrite Em. auto.
    - destruct (isMetalOf shape); simpl.
      + repeat split; auto. unfold newMask. apply repeat_length.
      + rewrite Em. auto. }
  assert (Hcell1 : gridCell (y * nx + x) g1 = gridCell (y * nx + x) g).
  { unfold g1. destruct (Grids.metalMask g) as [m|] eqn:Em; auto.
    destruct (isMetalOf shape); auto.
    unfold gridCell, cellOf. simpl. rewrite Em. simpl. now rewrite getb_newMask. }
  assert (Hidx : (y * nx + x < nx * ny)%nat) by nia.
  destruct (rasterShape_cell (gridCell (y * nx + x)) (gridsWf (nx * ny) (isMetalOf shape))
              (paintCell (epsValOf shape) (sigValOf shape) (isMetalOf shape))
              nx ny x y (epsValOf shape, sigValOf shape, isMetalOf shape) Hx Hy
              (fun idx s => paintCell_wf _ _ _ _ idx s)
              (fun idx s => paintCell_cell _ _ _ _ _ idx s Hidx)
              (Domain.origin domain) dx dy Hdx Hdy shape g1 Hwf1) as [Hwf' Hobs].
  split.
  - destruct Hwf' as (H1 & H2 & H3). unfold gridsWf. split; [|split]; auto.
    destruct (Grids.metalMask
                (rasterShape (Domain.origin domain) nx ny dx dy shape
                   (paintCell (epsValOf shape) (sigValOf shape) (isMetalOf shape)) g1));
      auto.
  - rewrite Hobs, Hcell1. reflexivity.
Qed.

Lemma find_last {A} (f : A -> bool) (l : list A) (a : A) :
  find f (rev (a :: l)) =
  match find f (rev l) with
  | Some b => Some b
  | None => if f a then Some a else None
  end.
Proof.
  simpl. induction (rev l) as [|h t IH]; simpl; auto.
  destruct (f h); auto.
Qed.

Lemma paintShapes_cell domain nx ny dx dy shapes x y g b :
  0 < dx -> 0 < dy -> (x < nx)%nat -> (y < ny)%nat ->
  gridsWf (nx * ny) b g ->
  let g' := forOf shapes (paintShape domain nx ny dx dy) g in
  gridCell (y * nx + x) g'
  = match lastCovering (Domain.origin domain) dx dy shapes x y with
    | Some shape => (epsValOf shape, sigValOf shape, isMetalOf shape)
    | None => gridCell (y * nx + x) g
    end.
Proof.
  intros Hdx Hdy Hx Hy. unfold forOf, lastCovering. revert g b.
  induction shapes as [|shape shapes IH]; intros g b Hwf; simpl fold_left.
  - reflexivity.
  - destruct (paintShape_cell domain nx ny dx dy shape x y g b Hdx Hdy Hx Hy Hwf)
      as [Hwf' Hcell].
    cbv zeta. rewrite (IH _ _ Hwf'). rewrite find_last.
    destruct (find _ (rev shapes)); auto.
    rewrite Hcell. destruct (coversCell _ _ _ shape x y); auto.
Qed.



(** The cell [(x, y)] of the map [setBarrierFromShapes] installs. *)
Lemma setBarrierFromShapes_cell (s : EMSolver2D.t) (shapes : list Shape.t) (x y : nat) :
  let domain := EMSolver2D.domain s in
  let nx := EMSolver2D.nx s in
  let ny := EMSolver2D.ny s in
  let dx := cellSize (Vec2.x (Domain.worldSize domain)) nx in
  let dy := cellSize (Vec2.y (Domain.worldSize domain)) ny in
  let s' := EMSolver2D.setBarrierFromShapes shapes s in
  0 < Vec2.x (Domain.worldSize domain) ->
  0 < Vec2.y (Domain.worldSize domain) ->
  (x < nx)%nat -> (y < ny)%nat ->
  shapes <> [] ->
  cellOf (EMSolver2D.epsRGrid s') (EMSolver2D.sigmaGrid s') (EMSolver2D.metalMask s')
         (y * nx + x)
  = match lastCovering (Domain.origin domain) dx dy shapes x y with
    | Some shape => (epsValOf shape, sigValOf shape, isMetalOf shape)
    | None => (1, 0, false)
    end.
Proof.
  intros domain nx ny dx dy s' Hwx Hwy Hx Hy Hne.
  assert (Hdx : 0 < dx) by (apply cellSize_pos; assumption).
  assert (Hdy : 0 < dy) by (apply cellSize_pos; assumption).
  unfold s', EMSolver2D.setBarrierFromShapes.
  fold domain nx ny.
  destruct shapes as [|shape shapes]; [congruence|].
  unfold buildMaterialGrids. fold dx dy.
  set (g0 := Grids.mk (fill (newArray (nx * ny)) 1) (fill (newArray (nx * ny)) 0) None).
  pose proof (paintShapes_cell domain nx ny dx dy (shape :: shapes) x y g0 false
                Hdx Hdy Hx Hy) as H.
  assert (Hwf : gridsWf (nx * ny) false g0).
  { unfold gridsWf, g0. simpl.
    rewrite !fill_length. unfold newArray. rewrite repeat_length. auto. }
  specialize (H Hwf). cbv zeta in H. unfold gridCell in H.
  destruct s. simpl. simpl in H. rewrite H.
  destruct (lastCovering _ dx dy (shape :: shapes) x y); auto.
  unfold cellOf, g0. simpl. unfold fill, newArray. rewrite repeat_length.
  assert ((y * nx + x < nx * ny)%nat) by nia.
  rewrite !get_repeat by assumption. reflexivity.
Qed.

(** [setBarrierFromShapes] assigns the material map only. *)
Lemma setBarrierFromShapes_members shapes s :
  let s' := EMSolver2D.setBarrierFromShapes shapes s in
  EMSpec.frame s' = EMSpec.frame s /\ EMSpec.lengths s' = EMSpec.lengths s /\
  EMSolver2D.sources s' = EMSolver2D.sources s /\
  EMSolver2D.time s' = EMSolver2D.time s /\
  EMSolver2D.ex s' = EMSolver2D.ex s /\ EMSolver2D.ey s' = EMSolver2D.ey s /\
  EMSolver2D.hz s' = EMSolver2D.hz s.
Proof.
  cbv zeta. unfold EMSolver2D.setBarrierFromShapes.
  destruct (buildMaterialGrids _ _ _ shapes); destruct s; repeat split.
Qed.



(** ** The fields at a cell through one advance *)

Module EMCells.
Import EMSolver2D EMSpec EMFacts.


Lemma frame_nx s s' : frame s' = frame s -> nx s' = nx s /\ ny s' = ny s.
Proof. unfold frame. intros H. injection H. auto. Qed.

Lemma fieldsOnly_inputs s s' :
  fieldsOnly s s' ->
  nx s' = nx s /\ ny s' = ny s /\ sources s' = sources s /\
  metalMask s' = metalMask s /\ pmlMask s' = pmlMask s /\ time s' = time s /\
  length (ex s') = length (ex s) /\ length (ey s') = length (ey s) /\
  length (hz s') = length (hz s).
Proof.
  intros [(F & I & A & L) (T & _)].
  unfold frame, inputs, lengths in *.
  injection F. injection I. injection L. intros. repeat split; congruence.
Qed.

(** *** "Source injection into Hz (soft source)." *)

Lemma injectHz_loop t l s i :
  (i < length (hz s))%nat ->
  let s' := forOf l (fun source s =>
              withHz (upd (hz s) (Source.index source)
                          (get (hz s) (Source.index source) + legacySignal source t)) s) s in
  get (hz s') i
  = get (hz s) i + Rsum (map (fun source => legacySignal source t) (sourcesAt l i)) /\
  ex s' = ex s /\ ey s' = ey s.
Proof.
  unfold forOf. revert s. induction l as [|src l IH]; intros s Hi; simpl.
  - repeat split. lra.
  - set (s1 := withHz (upd (hz s) (Source.index src)
                          (get (hz s) (Source.index src) + legacySignal src t)) s).
    assert (Hlen : (i < length (hz s1))%nat).
    { unfold s1. destruct s. simpl in *. now rewrite upd_length. }
    destruct (IH s1 Hlen) as (Hhz & Hex & Hey).
    rewrite Hhz, Hex, Hey.
    assert (E1 : ex s1 = ex s) by (unfold s1; destruct s; reflexivity).
    assert (E2 : ey s1 = ey s) by (unfold s1; destruct s; reflexivity).
    assert (E3 : get (hz s1) i
                 = if (Source.index src =? i)%nat
                   then get (hz s) i + legacySignal src t else get (hz s) i).
    { unfold s1. destruct s. simpl in *. rewrite get_upd.
      destruct (Nat.eqb_spec (Source.index src) i) as [->|Hne]; simpl; auto.
      replace (i <? length hz0)%nat with true by (symmetry; apply Nat.ltb_lt; lia).
      reflexivity. }
    rewrite E3. repeat split; auto.
    destruct (Source.index src =? i)%nat; simpl; lra.
Qed.

Lemma injectHz_cell s i :
  (i < length (hz s))%nat ->
  get (hz (injectHz s)) i
  = get (hz s) i
    + Rsum (map (fun source => legacySignal source (time s)) (sourcesAt (sources s) i)) /\
  ex (injectHz s) = ex s /\ ey (injectHz s) = ey s.
Proof.
  intros Hi. unfold injectHz.
  destruct (sources s) as [|src l] eqn:E.
  - simpl. repeat split. lra.
  - rewrite <- E. now apply injectHz_loop.
Qed.

(** *** The two stencil updates touch one field each *)

Lemma updateHz_e dt s : ex (updateHz dt s) = ex s /\ ey (updateHz dt s) = ey s.
Proof.
  unfold updateHz.
  apply (forRange_inv (fun s' => ex s' = ex s /\ ey s' = ey s)); auto.
  intros y s1 _ H1.
  apply (forRange_inv (fun s' => ex s' = ex s /\ ey s' = ey s)); auto.
  intros x s2 _ H2. destruct (maskAt _ _); auto.
Qed.

Lemma updateE_hz dt s : hz (updateE dt s) = hz s.
Proof.
  unfold updateE.
  apply (forRange_inv (fun s' => hz s' = hz s)); auto.
  intros y s1 _ H1.
  apply (forRange_inv (fun s' => hz s' = hz s)); auto.
  intros x s2 _ H2. destruct (maskAt _ _); auto.
Qed.

(** *** The edge ring *)

Lemma zeroCell_other s i j : i <> j -> cellAt (zeroCell j s) i = cellAt s i.
Proof.
  intros Hne. unfold cellAt, zeroCell. destruct s. simpl.
  rewrite !get_upd.
  replace (j =? i)%nat with false by (symmetry; apply Nat.eqb_neq; lia).
  reflexivity.
Qed.

Lemma hardBoundary_offEdge s x y :
  offEdge (nx s) (ny s) x y ->
  cellAt (hardBoundary s) (y * nx s + x) = cellAt s (y * nx s + x).
Proof.
  intros (Hx1 & Hx2 & Hy1 & Hy2). unfold hardBoundary.
  set (i := (y * nx s + x)%nat).
  set (P := fun s' => fieldsOnly s s' /\ cellAt s' i = cellAt s i).
  assert (Hz : forall s' j, P s' -> i <> j -> P (zeroCell j s')).
  { intros s' j [Hf Hc] Hne. split.
    - eapply fieldsOnly_trans; [exact Hf|apply fieldsOnly_zeroCell].
    - now rewrite zeroCell_other. }
  assert (H : P (forRange 0 (ny (forRange 0 (nx s)
                    (fun x0 s0 => zeroCell ((ny s0 - 1) * nx s0 + x0) (zeroCell x0 s0)) s))
                  (fun y0 s0 => zeroCell (y0 * nx s0 + nx s0 - 1) (zeroCell (y0 * nx s0) s0))
                  (forRange 0 (nx s)
                    (fun x0 s0 => zeroCell ((ny s0 - 1) * nx s0 + x0) (zeroCell x0 s0)) s))).
  { apply forRange_inv.
    - apply forRange_inv.
      + split; [apply fieldsOnly_refl|reflexivity].
      + intros x0 s0 Hx0 HP.
        destruct (fieldsOnly_inputs _ _ (proj1 HP)) as (Enx & Eny & _).
        apply Hz.
        * apply Hz; auto. unfold i. nia.
        * rewrite Enx, Eny. unfold i. nia.
    - intros y0 s0 Hy0 HP.
      destruct (fieldsOnly_inputs _ _ (proj1 HP)) as (Enx & Eny & _).
      apply Hz.
      + apply Hz; auto. rewrite Enx. unfold i. intros E.
        assert (y0 * nx s + 0 = y * nx s + x)%nat by lia.
        apply cell_index_inj in H; lia.
      + rewrite Enx. unfold i. intros E.
        assert (y0 * nx s + (nx s - 1) = y * nx s + x)%nat by lia.
        apply cell_index_inj in H; lia. }
  exact (proj2 H).
Qed.



Lemma advance_phases dt s :
  advance dt s = computeStats dt (hardBoundary (injectSources (afterE dt s))).
Proof. reflexivity. Qed.

Lemma fieldsOnly_afterHz dt s : fieldsOnly s (afterHz dt s).
Proof.
  unfold afterHz. eapply fieldsOnly_trans;
    [apply fieldsOnly_zeroMetal|apply fieldsOnly_updateHz].
Qed.

Lemma fieldsOnly_afterHzInjection dt s : fieldsOnly s (afterHzInjection dt s).
Proof.
  unfold afterHzInjection. eapply fieldsOnly_trans;
    [apply fieldsOnly_afterHz|apply fieldsOnly_injectHz].
Qed.

Lemma fieldsOnly_afterE dt s : fieldsOnly s (afterE dt s).
Proof.
  unfold afterE. eapply fieldsOnly_trans;
    [apply fieldsOnly_afterHzInjection|apply fieldsOnly_updateE].
Qed.

Lemma legacySignal_eq source t :
  legacySignal source t
  = Source.amplitude source *
    sin (2 * PI * Source.frequency source * t + Source.phase source).
Proof. unfold legacySignal, TAU. do 2 f_equal. ring. Qed.

(** *** "Sources: inject into selected field" with one source *)

Lemma injectSources_single s source :
  sources s = [source] -> injectSources s = injectOne (time s) source s.
Proof. intros E. unfold injectSources. rewrite E. reflexivity. Qed.

(** What [injectOne] leaves at the cell of its source, when the cell is
    neither metal nor in the PML band. *)
Lemma injectOne_cell t source s :
  let idx := Source.index source in
  let sv := Source.amplitude source * evalSourceSignal source t in
  let a := (Source.polarizationAngle source * PI) / 180 in
  let hard := String.eqb (Source.injection source) "hard" in
  maskAt (metalMask s) idx = false -> maskAt (pmlMask s) idx = false ->
  (idx < length (ex s))%nat -> (idx < length (ey s))%nat -> (idx < length (hz s))%nat ->
  cellAt (injectOne t source s) idx
  = if String.eqb (Source.excite source) "hz" then
      (get (ex s) idx, get (ey s) idx, if hard then sv else get (hz s) idx + sv)
    else if String.eqb (Source.excite source) "ex" then
      (if hard then sv else get (ex s) idx + sv, get (ey s) idx, get (hz s) idx)
    else if String.eqb (Source.excite source) "ey" then
      (get (ex s) idx, if hard then sv else get (ey s) idx + sv, get (hz s) idx)
    else
      (if hard then sv * cos a else get (ex s) idx + sv * cos a,
       if hard then sv * sin a else get (ey s) idx + sv * sin a,
       get (hz s) idx).
Proof.
  intros idx sv a hard Hm Hp Hex Hey Hhz.
  unfold injectOne. fold idx. rewrite Hm, Hp. fold sv. fold hard. fold a.
  assert (Tx : (idx <? length (ex s))%nat = true) by (apply Nat.ltb_lt; lia).
  assert (Ty : (idx <? length (ey s))%nat = true) by (apply Nat.ltb_lt; lia).
  assert (Tz : (idx <? length (hz s))%nat = true) by (apply Nat.ltb_lt; lia).
  destruct s. unfold cellAt. simpl in *.
  destruct (String.eqb (Source.excite source) "hz");
    [|destruct (String.eqb (Source.excite source) "ex");
      [|destruct (String.eqb (Source.excite source) "ey")]];
    destruct hard; simpl; rewrite ?get_upd, ?upd_length, ?Nat.eqb_refl, ?Tx, ?Ty, ?Tz;
    reflexivity.
Qed.



Lemma advance_cellAt dt s i :
  cellAt (advance dt s) i = cellAt (hardBoundary (injectSources (afterE dt s))) i.
Proof.
  rewrite advance_phases. unfold cellAt.
  destruct (computeStats_shape dt (hardBoundary (injectSources (afterE dt s))))
    as (_ & _ & Ex & Ey & Hz).
  now rewrite Ex, Ey, Hz.
Qed.

Lemma afterE_hz dt s i source :
  sources s = [source] -> Source.index source = i -> (i < length (hz s))%nat ->
  get (hz (afterE dt s)) i
  = get (hz (afterHz dt s)) i + legacySignal source (time s).
Proof.
  intros Hsrc Hidx Hi. unfold afterE. rewrite updateE_hz.
  destruct (fieldsOnly_inputs _ _ (fieldsOnly_afterHz dt s))
    as (_ & _ & Hs & _ & _ & Ht & _ & _ & Hlen).
  unfold afterHzInjection.
  destruct (injectHz_cell (afterHz dt s) i ltac:(lia)) as (Hhz & _).
  rewrite Hhz, Hs, Ht, Hsrc. unfold sourcesAt. simpl.
  rewrite Hidx, Nat.eqb_refl. simpl. lra.
Qed.

(** The fields at the cell of the only source after one advance, when the
    cell is off the edge ring, not metal and not in the PML band. *)
Lemma advance_single_source dt s source x y :
  let idx := (y * nx s + x)%nat in
  let sv := Source.amplitude source * evalSourceSignal source (time s) in
  let a := (Source.polarizationAngle source * PI) / 180 in
  let hard := String.eqb (Source.injection source) "hard" in
  let e := afterE dt s in
  sources s = [source] -> Source.index source = idx ->
  offEdge (nx s) (ny s) x y ->
  maskAt (metalMask s) idx = false -> maskAt (pmlMask s) idx = false ->
  (idx < length (ex s))%nat -> (idx < length (ey s))%nat -> (idx < length (hz s))%nat ->
  cellAt (advance dt s) idx
  = if String.eqb (Source.excite source) "hz" then
      (get (ex e) idx, get (ey e) idx, if hard then sv else get (hz e) idx + sv)
    else if String.eqb (Source.excite source) "ex" then
      (if hard then sv else get (ex e) idx + sv, get (ey e) idx, get (hz e) idx)
    else if String.eqb (Source.excite source) "ey" then
      (get (ex e) idx, if hard then sv else get (ey e) idx + sv, get (hz e) idx)
    else
      (if hard then sv * cos a else get (ex e) idx + sv * cos a,
       if hard then sv * sin a else get (ey e) idx + sv * sin a,
       get (hz e) idx).
Proof.
  intros idx sv a hard e Hsrc Hidx Hoff Hm Hp Hex Hey Hhz.
  rewrite advance_cellAt. fold e.
  destruct (fieldsOnly_inputs _ _ (fieldsOnly_afterE dt s))
    as (Enx & Eny & Es & Em & Ep & Et & Lx & Ly & Lz).
  fold e in Enx, Eny, Es, Em, Ep, Et, Lx, Ly, Lz.
  destruct (fieldsOnly_inputs _ _ (fieldsOnly_injectSources e))
    as (Enx' & Eny' & _).
  assert (Hoff' : offEdge (nx (injectSources e)) (ny (injectSources e)) x y)
    by (rewrite Enx', Eny', Enx, Eny; exact Hoff).
  pose proof (hardBoundary_offEdge (injectSources e) x y Hoff') as Hb.
  rewrite Enx', Enx in Hb. fold idx in Hb. rewrite Hb.
  rewrite (injectSources_single e source) by congruence.
  rewrite Et.
  pose proof (injectOne_cell (time s) source e) as H. cbv zeta in H.
  rewrite Hidx in H. fold sv a hard in H.
  apply H; try congruence.
Qed.

(** *** Metal cells *)

Lemma get_upd_zero a j i : get a i = 0 -> get (upd a j 0) i = 0.
Proof. intros H. rewrite get_upd. destruct (_ && _); auto. Qed.

Lemma get_upd_zero_same a i : get (upd a i 0) i = 0.
Proof.
  rewrite get_upd, Nat.eqb_refl. simpl.
  destruct (Nat.ltb_spec i (length a)); auto.
  unfold get. now rewrite nth_overflow.
Qed.

Lemma zeroMetal_cell s m :
  maskAt (metalMask s) m = true -> cellAt (zeroMetal s) m = (0, 0, 0).
Proof.
  unfold zeroMetal, maskAt. destruct (metalMask s) as [metal|]; [|discriminate].
  intros Hm.
  assert (Hlt : (m < length metal)%nat).
  { destruct (Nat.ltb_spec m (length metal)) as [H|H]; auto.
    unfold getb in Hm. rewrite nth_overflow in Hm by lia. discriminate. }
  set (body := fun i s0 =>
                 if getb metal i
                 then withHz (upd (hz (withEy (upd (ey (withEx (upd (ex s0) i 0) s0)) i 0)
                                         (withEx (upd (ex s0) i 0) s0))) i 0)
                        (withEy (upd (ey (withEx (upd (ex s0) i 0) s0)) i 0)
                           (withEx (upd (ex s0) i 0) s0))
                 else s0).
  assert (Hkeep : forall i s0, cellAt s0 m = (0, 0, 0) -> cellAt (body i s0) m = (0, 0, 0)).
  { intros i s0 H. unfold body. destruct (getb metal i); auto.
    destruct s0. unfold cellAt in *. simpl in *.
    injection H as H1 H2 H3. now rewrite !get_upd_zero. }
  assert (Hgen : forall k, (m < k)%nat -> cellAt (forRange 0 k body s) m = (0, 0, 0)).
  { induction k as [|k IH]; intros Hk; [lia|].
    rewrite forRange_last by lia.
    destruct (Nat.eq_dec m k) as [->|Hne].
    - unfold body at 1. rewrite Hm.
      destruct (forRange 0 k body s). unfold cellAt. simpl.
      now rewrite !get_upd_zero_same.
    - apply Hkeep, IH. lia. }
  apply (Hgen (length metal) Hlt).
Qed.

Lemma updateHz_metal dt s m :
  maskAt (metalMask s) m = true -> get (hz (updateHz dt s)) m = get (hz s) m.
Proof.
  intros Hm. unfold updateHz.
  set (P := fun s' => fieldsOnly s s' /\ get (hz s') m = get (hz s) m).
  assert (HP : forall s', P s' -> forall idx,
             P (if maskAt (metalMask s') idx then s'
                else withHz (upd (hz s') idx (hzStencil dt s' idx)) s')).
  { intros s' [Hf Hc] idx.
    destruct (maskAt (metalMask s') idx) eqn:Hi; [split; auto|].
    split; [eapply fieldsOnly_trans; [exact Hf|apply fieldsOnly_withHz]|].
    destruct (fieldsOnly_inputs _ _ Hf) as (_ & _ & _ & Em & _).
    assert (idx <> m) by (intros ->; congruence).
    destruct s'. simpl in *. rewrite get_upd.
    replace (idx =? m)%nat with false by (symmetry; apply Nat.eqb_neq; lia).
    exact Hc. }
  apply (forRange_inv P); [split; [apply fieldsOnly_refl|reflexivity]|].
  intros y s1 _ H1.
  apply (forRange_inv P); [assumption|].
  intros x s2 _ H2. apply HP, H2.
Qed.

Lemma updateE_metal dt s m :
  maskAt (metalMask s) m = true ->
  get (ex (updateE dt s)) m = get (ex s) m /\ get (ey (updateE dt s)) m = get (ey s) m.
Proof.
  intros Hm. unfold updateE.
  set (P := fun s' => fieldsOnly s s' /\
                      get (ex s') m = get (ex s) m /\ get (ey s') m = get (ey s) m).
  assert (HP : forall s', P s' -> forall idx,
             P (if maskAt (metalMask s') idx then s'
                else withEy (upd (ey (withEx (upd (ex s') idx (exStencil dt s' idx)) s'))
                                 idx (eyStencil dt s' idx))
                       (withEx (upd (ex s') idx (exStencil dt s' idx)) s'))).
  { intros s' (Hf & Hx & Hy) idx.
    destruct (maskAt (metalMask s') idx) eqn:Hi; [exact (conj Hf (conj Hx Hy))|].
    split.
    - eapply fieldsOnly_trans; [exact Hf|].
      eapply fieldsOnly_trans; [apply fieldsOnly_withEx|apply fieldsOnly_withEy].
    - destruct (fieldsOnly_inputs _ _ Hf) as (_ & _ & _ & Em & _).
      assert (idx <> m) by (intros ->; congruence).
      destruct s'. simpl in *. rewrite !get_upd.
      replace (idx =? m)%nat with false by (symmetry; apply Nat.eqb_neq; lia).
      auto. }
  assert (H : P (forRange 1 (ny s - 1)
              (fun y s0 =>
                 forRange 1 (nx s0 - 1)
                   (fun x s1 =>
                      if maskAt (metalMask s1) (y * nx s0 + x) then s1
                      else withEy (upd (ey (withEx (upd (ex s1) (y * nx s0 + x)
                                                       (exStencil dt s1 (y * nx s0 + x))) s1))
                                       (y * nx s0 + x) (eyStencil dt s1 (y * nx s0 + x)))
                             (withEx (upd (ex s1) (y * nx s0 + x)
                                          (exStencil dt s1 (y * nx s0 + x))) s1)) s0) s)).
  { apply (forRange_inv P); [split; [apply fieldsOnly_refl|auto]|].
    intros y s1 _ H1.
    apply (forRange_inv P); [assumption|].
    intros x s2 _ H2. apply HP, H2. }
  exact (proj2 H).
Qed.

Lemma injectOne_other t source s m :
  Source.index source <> m \/ maskAt (metalMask s) (Source.index source) = true
  \/ maskAt (pmlMask s) (Source.index source) = true ->
  cellAt (injectOne t source s) m = cellAt s m.
Proof.
  intros H. unfold injectOne.
  destruct (maskAt (metalMask s) (Source.index source)) eqn:Hm; auto.
  destruct (maskAt (pmlMask s) (Source.index source)) eqn:Hp; auto.
  assert (Hne : (Source.index source =? m)%nat = false).
  { apply Nat.eqb_neq. destruct H as [H|[H|H]]; congruence. }
  destruct s. unfold cellAt. simpl in *.
  repeat match goal with
         | |- context [if ?b then _ else _] => destruct b
         end; simpl; rewrite ?get_upd, ?Hne; reflexivity.
Qed.

Lemma injectSources_metal s m :
  maskAt (metalMask s) m = true -> cellAt (injectSources s) m = cellAt s m.
Proof.
  intros Hm. unfold injectSources.
  destruct (sources s) eqn:E; auto. rewrite <- E.
  set (P := fun s' => fieldsOnly s s' /\ cellAt s' m = cellAt s m).
  assert (H : P (forOf (sources s) (injectOne (time s)) s)).
  { apply (forOf_inv P); [split; [apply fieldsOnly_refl|reflexivity]|].
    intros src s' _ [Hf Hc]. split.
    - eapply fieldsOnly_trans; [exact Hf|apply fieldsOnly_injectOne].
    - rewrite <- Hc. apply injectOne_other.
      destruct (fieldsOnly_inputs _ _ Hf) as (_ & _ & _ & Em & _).
      destruct (Nat.eq_dec (Source.index src) m) as [->|Hne]; auto.
      right. left. congruence. }
  exact (proj2 H).
Qed.

Lemma zeroCell_zero s j m :
  get (ex s) m = 0 /\ get (ey s) m = 0 ->
  get (ex (zeroCell j s)) m = 0 /\ get (ey (zeroCell j s)) m = 0.
Proof.
  intros [Hx Hy]. unfold zeroCell. destruct s. simpl in *.
  now rewrite !get_upd_zero.
Qed.

Lemma hardBoundary_zero s m :
  get (ex s) m = 0 /\ get (ey s) m = 0 ->
  get (ex (hardBoundary s)) m = 0 /\ get (ey (hardBoundary s)) m = 0.
Proof.
  intros H. unfold hardBoundary.
  apply (forRange_inv (fun s' => get (ex s') m = 0 /\ get (ey s') m = 0)).
  - apply (forRange_inv (fun s' => get (ex s') m = 0 /\ get (ey s') m = 0)); auto.
    intros x s' _ H'. now apply zeroCell_zero, zeroCell_zero.
  - intros y s' _ H'. now apply zeroCell_zero, zeroCell_zero.
Qed.

Lemma cellAt_components s s' i :
  cellAt s i = cellAt s' i ->
  get (ex s) i = get (ex s') i /\ get (ey s) i = get (ey s') i /\
  get (hz s) i = get (hz s') i.
Proof. unfold cellAt. intros H. injection H. auto. Qed.

Lemma cellAt_values s i a b c :
  cellAt s i = (a, b, c) -> get (ex s) i = a /\ get (ey s) i = b /\ get (hz s) i = c.
Proof. unfold cellAt. intros H. injection H. auto. Qed.

Lemma injectHz_e s : ex (injectHz s) = ex s /\ ey (injectHz s) = ey s.
Proof.
  unfold injectHz. destruct (sources s) eqn:E; auto. rewrite <- E.
  apply (forOf_inv (fun s' => ex s' = ex s /\ ey s' = ey s)); auto.
Qed.

(** After an advance the electric field is zero at every metal cell; the
    magnetic field was zero there after the Hz update, and what the advance
    leaves there is what the injection into Hz added, unless the cell is on
    the edge ring. *)
Lemma advance_metal_cell dt s m :
  maskAt (metalMask s) m = true ->
  get (ex (advance dt s)) m = 0 /\ get (ey (advance dt s)) m = 0 /\
  cellAt (afterHz dt s) m = (0, 0, 0) /\
  cellAt (injectSources (afterE dt s)) m
  = (0, 0, get (hz (afterHzInjection dt s)) m).
Proof.
  intros Hm.
  assert (H1 : cellAt (afterHz dt s) m = (0, 0, 0)).
  { pose proof (zeroMetal_cell s m Hm) as Hz.
    destruct (fieldsOnly_inputs _ _ (fieldsOnly_zeroMetal s)) as (_ & _ & _ & Em & _).
    unfold afterHz, cellAt in *.
    destruct (updateHz_e dt (zeroMetal s)) as [Ex Ey].
    rewrite Ex, Ey, updateHz_metal by congruence. exact Hz. }
  assert (H2 : get (ex (afterE dt s)) m = 0 /\ get (ey (afterE dt s)) m = 0).
  { unfold afterE.
    destruct (fieldsOnly_inputs _ _ (fieldsOnly_afterHzInjection dt s))
      as (_ & _ & _ & Em & _).
    destruct (updateE_metal dt (afterHzInjection dt s) m ltac:(congruence)) as [Ex Ey].
    rewrite Ex, Ey. unfold afterHzInjection.
    destruct (injectHz_e (afterHz dt s)) as [Ex' Ey']. rewrite Ex', Ey'.
    destruct (cellAt_values _ _ _ _ _ H1) as (Hx & Hy & _). auto. }
  assert (H3 : cellAt (injectSources (afterE dt s)) m
               = (0, 0, get (hz (afterHzInjection dt s)) m)).
  { destruct (fieldsOnly_inputs _ _ (fieldsOnly_afterE dt s)) as (_ & _ & _ & Em & _).
    rewrite injectSources_metal by congruence.
    unfold cellAt. destruct H2 as [Hx Hy]. rewrite Hx, Hy.
    unfold afterE. now rewrite updateE_hz. }
  destruct (cellAt_components _ _ _ (advance_cellAt dt s m)) as (Hx & Hy & _).
  destruct (cellAt_values _ _ _ _ _ H3) as (Hx' & Hy' & _).
  destruct (hardBoundary_zero (injectSources (afterE dt s)) m (conj Hx' Hy')) as [Bx By].
  rewrite Hx, Hy. auto.
Qed.



(** The only source sits off the edge ring in a metal or PML cell: the
    second injection skips it, and the advance leaves at its cell what the
    E update and the injection into Hz produced. *)
Lemma advance_skipped_source dt s source x y :
  let idx := (y * nx s + x)%nat in
  sources s = [source] -> Source.index source = idx ->
  offEdge (nx s) (ny s) x y ->
  maskAt (metalMask s) idx = true \/ maskAt (pmlMask s) idx = true ->
  (idx < length (hz s))%nat ->
  injectSources (afterE dt s) = afterE dt s /\
  cellAt (advance dt s) idx = cellAt (afterE dt s) idx /\
  get (hz (advance dt s)) idx
  = get (hz (afterHz dt s)) idx + legacySignal source (time s).
Proof.
  intros idx Hsrc Hidx Hoff Hmask Hlen.
  destruct (fieldsOnly_inputs _ _ (fieldsOnly_afterE dt s))
    as (Enx & Eny & Es & Em & Ep & Et & Lx & Ly & Lz).
  assert (Hskip : injectSources (afterE dt s) = afterE dt s).
  { rewrite (injectSources_single _ source) by congruence.
    unfold injectOne. rewrite Em, Ep, Hidx. fold idx.
    destruct Hmask as [H|H]; rewrite H; auto.
    destruct (maskAt (metalMask s) idx); auto. }
  assert (Hcell : cellAt (advance dt s) idx = cellAt (afterE dt s) idx).
  { rewrite advance_cellAt, Hskip.
    pose proof (hardBoundary_offEdge (afterE dt s) x y) as Hb.
    rewrite Enx, Eny in Hb. fold idx in Hb. now apply Hb. }
  split; [exact Hskip|]. split; [exact Hcell|].
  destruct (cellAt_components _ _ _ Hcell) as (_ & _ & Hz). rewrite Hz.
  now apply afterE_hz.
Qed.

(** *** Fields that are zero everywhere *)

Lemma allZero_get s : allZero s ->
  (forall j, get (ex s) j = 0) /\ (forall j, get (ey s) j = 0) /\
  (forall j, get (hz s) j = 0).
Proof.
  intros H. repeat split; intros j;
    destruct (cellAt_values _ _ _ _ _ (H j)) as (Hx & Hy & Hz); auto.
Qed.

Lemma hzStencil_zero dt s idx : allZero s -> hzStencil dt s idx = 0.
Proof.
  intros H. destruct (allZero_get s H) as (Hx & Hy & Hz).
  unfold hzStencil. rewrite !Hx, !Hy, !Hz. ring.
Qed.

Lemma zeroMetal_allZero s : allZero s -> allZero (zeroMetal s).
Proof.
  intros H. unfold zeroMetal. destruct (metalMask s) as [metal|]; auto.
  apply (forRange_inv allZero); auto.
  intros i s' _ H'. destruct (getb metal i); auto.
  intros j. destruct (allZero_get s' H') as (Hx & Hy & Hz).
  destruct s'. unfold cellAt. simpl in *.
  now rewrite !get_upd_zero.
Qed.

Lemma updateHz_allZero dt s : allZero s -> allZero (updateHz dt s).
Proof.
  intros H. unfold updateHz.
  apply (forRange_inv allZero); auto.
  intros y s1 _ H1.
  apply (forRange_inv allZero); auto.
  intros x s2 _ H2. destruct (maskAt _ _); auto.
  intros j. destruct (allZero_get s2 H2) as (Hx & Hy & Hz).
  rewrite (hzStencil_zero dt s2 _ H2).
  destruct s2. unfold cellAt. simpl in *.
  now rewrite Hx, Hy, get_upd_zero.
Qed.

Lemma afterHz_allZero dt s : allZero s -> allZero (afterHz dt s).
Proof. intros H. now apply updateHz_allZero, zeroMetal_allZero. Qed.

Lemma allZero_newArray s n :
  ex s = newArray n -> ey s = newArray n -> hz s = newArray n -> allZero s.
Proof.
  intros Hx Hy Hz j. unfold cellAt. now rewrite Hx, Hy, Hz, !get_newArray.
Qed.




Lemma gridCount_IZR z : (2 <= z)%Z -> gridCount (IZR z) = Z.to_nat z.
Proof. intros H. unfold gridCount. rewrite ZfloorZ. f_equal. lia. Qed.

Lemma cellSize_unit n : (2 <= n)%Z -> cellSize (IZR (n - 1)) (Z.to_nat n) = 1.
Proof.
  intros H. rewrite cellSize_eq by lia.
  rewrite INR_IZR_INZ, Z2Nat.id by lia. rewrite minus_IZR.
  apply Rinv_r. rewrite <- minus_IZR. apply not_0_IZR. lia.
Qed.

Lemma nearestSample_one n : (2 <= n)%Z ->
  nearestSample ((1 - 0) / IZR (n - 1)) (Z.to_nat n) = 1%nat.
Proof.
  intros H. unfold nearestSample, round.
  rewrite INR_IZR_INZ, Z2Nat.id by lia.
  assert (Hn : IZR (n - 1) <> 0) by (apply not_0_IZR; lia).
  replace (IZR n - 1) with (IZR (n - 1)) by (rewrite minus_IZR; reflexivity).
  replace ((1 - 0) / IZR (n - 1) * IZR (n - 1) + 0.5) with 1.5.
  - rewrite (Zfloor_eq 1) by lra. lia.
  - unfold Rdiv. rewrite Rminus_0_r, Rmult_1_l, Rinv_l by exact Hn. lra.
Qed.

(** The members of [squareSolver n] the statements read. *)
Lemma squareSolver_members n : (2 <= n)%Z ->
  let s := squareSolver n in
  nx s = Z.to_nat n /\ ny s = Z.to_nat n /\
  domain s = squareDomain n /\ time s = 0 /\ sources s = [] /\
  metalMask s = None /\
  pmlMask s = buildPmlMask (Z.to_nat n) (Z.to_nat n)
                (usablePmlWidth (configOf (squareDomain n) unitSolver)
                                (Z.to_nat n) (Z.to_nat n)) /\
  ex s = newArray (Z.to_nat n * Z.to_nat n) /\
  ey s = newArray (Z.to_nat n * Z.to_nat n) /\
  hz s = newArray (Z.to_nat n * Z.to_nat n) /\
  instantaneous s = newArray (Z.to_nat n * Z.to_nat n).
Proof.
  intros H. unfold squareSolver, new.
  cbv beta iota zeta delta
    [nx ny domain time sources metalMask pmlMask ex ey hz instantaneous
     SolverConfig.domain configOf squareDomain Domain.grid Grid.nx Grid.ny].
  rewrite !gridCount_IZR by assumption. repeat split.
Qed.

(** The members of [sourceSolver n injection excite] the statements read. *)
Lemma sourceSolver_members n injection excite :
  (2 <= n)%Z -> injection <> EmptyString -> excite <> EmptyString ->
  let s := sourceSolver n injection excite in
  let size := (Z.to_nat n * Z.to_nat n)%nat in
  nx s = Z.to_nat n /\ ny s = Z.to_nat n /\
  domain s = squareDomain n /\ time s = 0 /\
  sources s = [cwEntry (Z.to_nat n) injection excite] /\
  metalMask s = None /\
  pmlMask s = buildPmlMask (Z.to_nat n) (Z.to_nat n)
                (usablePmlWidth (configOf (squareDomain n) unitSolver)
                                (Z.to_nat n) (Z.to_nat n)) /\
  ex s = newArray size /\ ey s = newArray size /\ hz s = newArray size /\
  instantaneous s = newArray size.
Proof.
  intros H Hi He.
  destruct (squareSolver_members n H)
    as (Hnx & Hny & Hd & Ht & _ & Hm & Hp & Hex & Hey & Hhz & Hin).
  cbv zeta in *. unfold sourceSolver, setSources.
  set (s := squareSolver n) in *. clearbody s.
  assert (Hs : map (sourceEntry s) (filter SourceObject.active [cwSource injection excite])
               = [cwEntry (Z.to_nat n) injection excite]).
  { simpl. unfold sourceEntry, cwEntry. simpl.
    rewrite Hnx, Hny, Hd. unfold indexFromWorld. simpl.
    rewrite nearestSample_one by assumption.
    unfold orString.
    destruct (String.eqb_spec injection EmptyString); [contradiction|].
    destruct (String.eqb_spec excite EmptyString); [contradiction|].
    reflexivity. }
  rewrite Hs. destruct s. simpl in *. repeat split; assumption.
Qed.

Lemma cw_signal_one n injection excite :
  evalSourceSignal (cwEntry n injection excite) 0 = 1 /\
  legacySignal (cwEntry n injection excite) 0 = 1.
Proof.
  unfold evalSourceSignal, legacySignal, cwEntry. simpl.
  rewrite Rmax_right by lra.
  replace (TAU * 1 * 0 + PI / 2) with (PI / 2) by ring.
  rewrite sin_PI2. split; lra.
Qed.



Lemma pmlMask_3 :
  buildPmlMask 3 3 (usablePmlWidth (configOf (squareDomain 3) unitSolver) 3 3) = None.
Proof. reflexivity. Qed.

Lemma pmlMask_4 :
  buildPmlMask 4 4 (usablePmlWidth (configOf (squareDomain 4) unitSolver) 4 4)
  = Some [true; true; true; true;
          true; false; false; true;
          true; false; false; true;
          true; true; true; true].
Proof. reflexivity. Qed.

Lemma pmlMask_6 :
  buildPmlMask 6 6 (usablePmlWidth (configOf (squareDomain 6) unitSolver) 6 6)
  = Some [true; true; true; true; true; true;
          true; true; true; true; true; true;
          true; true; false; false; true; true;
          true; true; false; false; true; true;
          true; true; true; true; true; true;
          true; true; true; true; true; true].
Proof. reflexivity. Qed.

(** The fresh solver with the source: all fields are zero after the Hz update. *)
Lemma sourceSolver_afterHz n injection excite dt j :
  (2 <= n)%Z -> injection <> EmptyString -> excite <> EmptyString ->
  cellAt (afterHz dt (sourceSolver n injection excite)) j = (0, 0, 0).
Proof.
  intros H Hi He.
  destruct (sourceSolver_members n injection excite H Hi He)
    as (_ & _ & _ & _ & _ & _ & _ & Hex & Hey & Hhz & _).
  apply afterHz_allZero. eapply allZero_newArray; eassumption.
Qed.

Lemma sourceSolver_single n injection excite dt :
  (3 <= n)%Z -> injection <> EmptyString -> excite <> EmptyString ->
  let s := sourceSolver n injection excite in
  let idx := (1 * Z.to_nat n + 1)%nat in
  maskAt (pmlMask s) idx = false ->
  let hard := String.eqb injection "hard" in
  let e := afterE dt s in
  cellAt (advance dt s) idx
  = if String.eqb excite "hz" then
      (get (ex e) idx, get (ey e) idx, if hard then 1 else 2)
    else if String.eqb excite "ex" then
      (if hard then 1 else get (ex e) idx + 1, get (ey e) idx, 1)
    else if String.eqb excite "ey" then
      (get (ex e) idx, if hard then 1 else get (ey e) idx + 1, 1)
    else
      (if hard then 1 else get (ex e) idx + 1,
       if hard then 0 else get (ey e) idx + 0, 1).
Proof.
  intros H Hi He s idx Hp hard e.
  destruct (sourceSolver_members n injection excite ltac:(lia) Hi He)
    as (Hnx & Hny & _ & Ht & Hs & Hm & _ & Hex & Hey & Hhz & _).
  fold s in Hnx, Hny, Ht, Hs, Hm, Hex, Hey, Hhz.
  assert (Hlen : (idx < Z.to_nat n * Z.to_nat n)%nat) by (unfold idx; nia).
  pose proof (advance_single_source dt s (cwEntry (Z.to_nat n) injection excite) 1 1) as A.
  cbv zeta in A. rewrite Hnx, Hny, Hm, Hex, Hey, Hhz, Ht in A.
  unfold newArray in A. rewrite repeat_length in A. fold idx in A.
  specialize (A Hs eq_refl).
  assert (Hoff : offEdge (Z.to_nat n) (Z.to_nat n) 1 1) by (unfold offEdge; lia).
  specialize (A Hoff eq_refl Hp Hlen Hlen Hlen).
  rewrite A. fold e.
  destruct (cw_signal_one (Z.to_nat n) injection excite) as [Hsig Hleg].
  rewrite Hsig.
  assert (Hz : get (hz e) idx = 1).
  { unfold e. rewrite (afterE_hz dt s idx (cwEntry (Z.to_nat n) injection excite));
      auto; [|rewrite Hhz; unfold newArray; rewrite repeat_length; exact Hlen].
    destruct (cellAt_values _ _ _ _ _
                (sourceSolver_afterHz n injection excite dt idx ltac:(lia) Hi He))
      as (_ & _ & Hz0).
    fold s in Hz0. rewrite Hz0, Ht, Hleg. lra. }
  rewrite Hz. simpl Source.excite. simpl Source.injection. fold hard.
  simpl Source.amplitude. simpl Source.polarizationAngle.
  replace (0 * PI / 180) with 0 by lra. rewrite cos_0, sin_0.
  destruct (String.eqb excite "hz"); [|destruct (String.eqb excite "ex");
    [|destruct (String.eqb excite "ey")]]; destruct hard;
    repeat f_equal; lra.
Qed.




Lemma Rsum_app l1 l2 : Rsum (l1 ++ l2) = Rsum l1 + Rsum l2.
Proof. induction l1 as [|a l1 IH]; simpl; [lra|]. rewrite IH. lra. Qed.

Lemma Rsum_nonneg l : (forall v, In v l -> 0 <= v) -> 0 <= Rsum l.
Proof.
  induction l as [|a l IH]; intros H; simpl; [lra|].
  assert (0 <= a) by (apply H; simpl; auto).
  assert (0 <= Rsum l) by (apply IH; intros v Hv; apply H; simpl; auto).
  lra.
Qed.

Lemma lengths_instantaneous a b :
  lengths a = lengths b -> length (instantaneous a) = length (instantaneous b).
Proof. unfold lengths. intros H. injection H. auto. Qed.

Lemma frame_pmlMask a b : frame a = frame b -> pmlMask a = pmlMask b.
Proof. unfold frame. intros H. injection H. auto. Qed.

Lemma magLoop_sum alpha n s :
  sumOf (forRange 0 n (magnitudeCell alpha) (mkMagLoop s 0 0))
  = Rsum (map (magnitudeAt s)
              (filter (fun i => negb (maskAt (pmlMask s) i)) (seq 0 n))).
Proof.
  induction n as [|n IH].
  - reflexivity.
  - rewrite forRange_last by lia.
    rewrite seq_S, filter_app, map_app, Rsum_app, <- IH. simpl seq. simpl filter.
    pose proof (outputsOnly_magLoop alpha n s) as Ho.
    set (l := forRange 0 n (magnitudeCell alpha) (mkMagLoop s 0 0)) in *.
    destruct Ho as [(F & _) (_ & _ & Ex & Ey & _)].
    assert (Ep : pmlMask (solverOf l) = pmlMask s) by (apply frame_pmlMask, F).
    unfold magnitudeCell. rewrite Ep.
    destruct (maskAt (pmlMask s) n); simpl.
    + lra.
    + unfold magnitudeAt. rewrite Ex, Ey. lra.
Qed.

(** What "Compute magnitudes + stats" stores as the mean. *)
Lemma computeStats_mean dt s :
  Stats.meanInstantaneous (stats (computeStats dt s))
  = Rsum (map (magnitudeAt s) (nonPmlCells s)) / INR (length (instantaneous s)).
Proof.
  unfold computeStats, nonPmlCells.
  pose proof (outputsOnly_magLoop (Rmin 1 (dt / avgTau s)) (length (instantaneous s)) s) as Ho.
  pose proof (magLoop_sum (Rmin 1 (dt / avgTau s)) (length (instantaneous s)) s) as Hs.
  set (l := forRange 0 (length (instantaneous s)) (magnitudeCell (Rmin 1 (dt / avgTau s)))
              (mkMagLoop s 0 0)) in *.
  destruct Ho as [(_ & _ & _ & L) _].
  assert (El : length (instantaneous (solverOf l)) = length (instantaneous s))
    by (apply lengths_instantaneous, L).
  rewrite <- Hs, <- El. destruct (solverOf l). reflexivity.
Qed.

Lemma advance_mean dt s :
  let s' := advance dt s in
  Stats.meanInstantaneous (getStats s')
  = Rsum (map (magnitudeAt s') (nonPmlCells s')) / INR (length (instantaneous s')).
Proof.
  cbv zeta. unfold getStats. rewrite advance_phases.
  set (b := hardBoundary (injectSources (afterE dt s))).
  rewrite computeStats_mean.
  destruct (computeStats_shape dt b) as [(F & _ & _ & L) (_ & Ex & Ey & _)].
  assert (Ep : pmlMask (computeStats dt b) = pmlMask b) by (apply frame_pmlMask, F).
  assert (El : length (instantaneous (computeStats dt b)) = length (instantaneous b))
    by (apply lengths_instantaneous, L).
  unfold nonPmlCells, magnitudeAt. rewrite Ep, El, Ex, Ey. reflexivity.
Qed.


End EMCells.

(** ** Source injection and statistics *)

Section InjectionAndStatistics.
Import EMSolver2D EMSpec EMFacts EMCells.

(** C4.  In every advance, between the Hz update and the E update, the value
    [amplitude * sin (2 * PI * frequency * t + phase)] of every entry of the
    source list is added to Hz at the cell of the entry: the sum ranges over
    all entries at the cell, whatever their waveform, injection mode or
    excited component, and whether or not the cell is metal or in the PML
    band; Ex and Ey are not touched. *)
Theorem advance_adds_cw_to_hz (dt : R) (s : EMSolver2D.t) (i : nat) :
  (i < length (EMSolver2D.hz s))%nat ->
  EMSolver2D.advance dt s
  = EMSolver2D.computeStats dt
      (EMSolver2D.hardBoundary
         (EMSolver2D.injectSources
            (EMSolver2D.updateE dt (EMSpec.afterHzInjection dt s)))) /\
  get (EMSolver2D.hz (EMSpec.afterHzInjection dt s)) i
  = get (EMSolver2D.hz (EMSpec.afterHz dt s)) i
    + Rsum (map (fun source =>
                   Source.amplitude source *
                   sin (2 * PI * Source.frequency source * EMSolver2D.time s
                        + Source.phase source))
                (sourcesAt (EMSolver2D.sources s) i)) /\
  EMSolver2D.ex (EMSpec.afterHzInjection dt s) = EMSolver2D.ex (EMSpec.afterHz dt s) /\
  EMSolver2D.ey (EMSpec.afterHzInjection dt s) = EMSolver2D.ey (EMSpec.afterHz dt s).
Proof.
  intros Hi. split; [reflexivity|].
  destruct (fieldsOnly_inputs _ _ (fieldsOnly_afterHz dt s))
    as (_ & _ & Hsrc & _ & _ & Ht & _ & _ & Hlen).
  unfold afterHzInjection.
  destruct (injectHz_cell (afterHz dt s) i ltac:(lia)) as (Hhz & Hex & Hey).
  rewrite Hhz, Hsrc, Ht. repeat split; auto.
  f_equal. f_equal. apply map_ext. intros src. apply legacySignal_eq.
Qed.

Lemma advance_adds_cw_to_hz_default :
  let s := sourceSolver 3 "soft" "hz" in
  let dt := EMSolver2D.dt s in
  get (EMSolver2D.hz (EMSpec.afterHzInjection dt s)) 4
  = get (EMSolver2D.hz (EMSpec.afterHz dt s)) 4
    + Rsum (map (fun source =>
                   Source.amplitude source *
                   sin (2 * PI * Source.frequency source * EMSolver2D.time s
                        + Source.phase source))
                (sourcesAt (EMSolver2D.sources s) 4)).
Proof.
  assert (Hlen : (4 < length (EMSolver2D.hz (sourceSolver 3 "soft" "hz")))%nat).
  { assert (Hi : "soft"%string <> EmptyString) by discriminate.
    assert (He : "hz"%string <> EmptyString) by discriminate.
    destruct (sourceSolver_members 3 "soft" "hz" ltac:(lia) Hi He)
      as (_ & _ & _ & _ & _ & _ & _ & _ & _ & Hhz & _).
    rewrite Hhz. unfold newArray. rewrite repeat_length. simpl. lia. }
  exact (proj1 (proj2 (advance_adds_cw_to_hz
                         (EMSolver2D.dt (sourceSolver 3 "soft" "hz"))
                         (sourceSolver 3 "soft" "hz") 4 Hlen))).
Defined.

Lemma sourceSolver_masks_3 injection excite :
  injection <> EmptyString -> excite <> EmptyString ->
  maskAt (metalMask (sourceSolver 3 injection excite)) 4 = false /\
  maskAt (pmlMask (sourceSolver 3 injection excite)) 4 = false.
Proof.
  intros Hi He.
  destruct (sourceSolver_members 3 injection excite ltac:(lia) Hi He)
    as (_ & _ & _ & _ & _ & Hm & Hp & _).
  rewrite Hm, Hp. split; reflexivity.
Qed.

(** C2.  A soft source that excites Hz is added twice, not once: on a grid
    of 3 by 3 without PML or metal, a single continuous-wave source at the
    centre cell 4 whose [amplitude * signal] is 1 leaves Hz at 2 after one
    advance from the fresh solver, where the Hz update computed 0.  With
    hard injection the same source leaves Hz at 1, the value
    [amplitude * signal]. *)
Theorem soft_hz_source_injected_twice :
  let s := sourceSolver 3 "soft" "hz" in
  let h := sourceSolver 3 "hard" "hz" in
  let source := cwEntry 3 "soft" "hz" in
  EMSolver2D.sources s = [source] /\
  Source.index source = 4%nat /\
  EMSolver2D.nx s = 3%nat /\ EMSolver2D.ny s = 3%nat /\
  maskAt (EMSolver2D.metalMask s) 4 = false /\
  maskAt (EMSolver2D.pmlMask s) 4 = false /\
  Source.amplitude source * evalSourceSignal source (EMSolver2D.time s) = 1 /\
  get (EMSolver2D.hz (afterHz (EMSolver2D.dt s) s)) 4 = 0 /\
  get (EMSolver2D.hz (EMSolver2D.advance (EMSolver2D.dt s) s)) 4 = 2 /\
  get (EMSolver2D.hz (EMSolver2D.advance (EMSolver2D.dt h) h)) 4 = 1.
Proof.
  intros s h source.
  assert (Hi : "soft"%string <> EmptyString) by discriminate.
  assert (Hh : "hard"%string <> EmptyString) by discriminate.
  assert (He : "hz"%string <> EmptyString) by discriminate.
  destruct (sourceSolver_members 3 "soft" "hz" ltac:(lia) Hi He)
    as (Hnx & Hny & _ & Ht & Hs & _).
  destruct (sourceSolver_masks_3 "soft" "hz" Hi He) as [Hm Hp].
  destruct (sourceSolver_masks_3 "hard" "hz" Hh He) as [Hm' Hp'].
  fold s in Hnx, Hny, Ht, Hs, Hm, Hp.
  split; [exact Hs|]. split; [reflexivity|].
  split; [exact Hnx|]. split; [exact Hny|].
  split; [exact Hm|]. split; [exact Hp|].
  split.
  { rewrite Ht. destruct (cw_signal_one 3 "soft" "hz") as [E _].
    unfold source. rewrite E. simpl. lra. }
  split.
  { exact (proj2 (proj2 (cellAt_values _ _ _ _ _
             (sourceSolver_afterHz 3 "soft" "hz" (dt s) 4 ltac:(lia) Hi He)))). }
  split.
  - exact (proj2 (proj2 (cellAt_values _ _ _ _ _
             (sourceSolver_single 3 "soft" "hz" (dt s) ltac:(lia) Hi He Hp)))).
  - exact (proj2 (proj2 (cellAt_values _ _ _ _ _
             (sourceSolver_single 3 "hard" "hz" (dt h) ltac:(lia) Hh He Hp')))).
Qed.

(** C3.  A source in the PML band is not skipped by the injection into Hz:
    on a grid of 6 by 6 (PML band of width 2) a single continuous-wave source
    at cell 7, which lies in the band and off the edge ring, is skipped by
    the second injection, yet after one advance from the fresh solver Hz at
    the cell is 1 where the Hz update computed 0. *)
Theorem pml_source_still_injected :
  let s := sourceSolver 6 "soft" "hz" in
  let source := cwEntry 6 "soft" "hz" in
  let dt := EMSolver2D.dt s in
  EMSolver2D.sources s = [source] /\
  Source.index source = 7%nat /\
  EMSolver2D.nx s = 6%nat /\ EMSolver2D.ny s = 6%nat /\
  maskAt (EMSolver2D.pmlMask s) 7 = true /\
  EMSolver2D.injectSources (afterE dt s) = afterE dt s /\
  get (EMSolver2D.hz (afterHz dt s)) 7 = 0 /\
  get (EMSolver2D.hz (EMSolver2D.advance dt s)) 7 = 1.
Proof.
  intros s source dt.
  assert (Hi : "soft"%string <> EmptyString) by discriminate.
  assert (He : "hz"%string <> EmptyString) by discriminate.
  destruct (sourceSolver_members 6 "soft" "hz" ltac:(lia) Hi He)
    as (Hnx & Hny & _ & Ht & Hs & _ & Hp & _ & _ & Hhz & _).
  fold s in Hnx, Hny, Ht, Hs, Hp, Hhz.
  assert (Hpml : maskAt (pmlMask s) 7 = true).
  { rewrite Hp. change (Z.to_nat 6) with 6%nat. rewrite pmlMask_6. reflexivity. }
  assert (Hz0 : get (hz (afterHz dt s)) 7 = 0).
  { exact (proj2 (proj2 (cellAt_values _ _ _ _ _
             (sourceSolver_afterHz 6 "soft" "hz" dt 7 ltac:(lia) Hi He)))). }
  pose proof (advance_skipped_source dt s source 1 1) as A. cbv zeta in A.
  rewrite Hnx, Hny in A. change (1 * Z.to_nat 6 + 1)%nat with 7%nat in A.
  assert (Hlen : (7 < length (hz s))%nat).
  { rewrite Hhz. unfold newArray. rewrite repeat_length. simpl. lia. }
  assert (Hoff : offEdge (Z.to_nat 6) (Z.to_nat 6) 1 1) by (unfold offEdge; simpl; lia).
  destruct (A Hs eq_refl Hoff (or_intror Hpml) Hlen) as (Hskip & _ & Hz).
  split; [exact Hs|]. split; [reflexivity|].
  split; [exact Hnx|]. split; [exact Hny|].
  split; [exact Hpml|]. split; [exact Hskip|]. split; [exact Hz0|].
  rewrite Hz, Hz0, Ht. destruct (cw_signal_one 6 "soft" "hz") as [_ E].
  unfold source. rewrite E. lra.
Qed.

(** C5.  After every advance [getStats().meanInstantaneous] is the
    sum of [sqrt (Ex^2 + Ey^2)] over the cells outside the PML mask divided
    by the number of all cells of the grid. *)
Theorem meanInstantaneous_over_all_cells (dt : R) (s : EMSolver2D.t) :
  let s' := EMSolver2D.advance dt s in
  Stats.meanInstantaneous (EMSolver2D.getStats s')
  = Rsum (map (magnitudeAt s') (nonPmlCells s'))
    / INR (length (EMSolver2D.instantaneous s')).
Proof. apply advance_mean. Qed.

(** The divisor is not the number of cells outside the PML mask: on a grid
    of 4 by 4 the four inner cells are outside it, and after one advance
    with a hard Ex source at cell 5 the mean is the sum over them divided by
    16, not by 4. *)
Lemma meanInstantaneous_not_over_nonPml :
  let s := sourceSolver 4 "hard" "ex" in
  let s' := EMSolver2D.advance (EMSolver2D.dt s) s in
  nonPmlCells s' = [5; 6; 9; 10]%nat /\
  length (EMSolver2D.instantaneous s') = 16%nat /\
  Stats.meanInstantaneous (EMSolver2D.getStats s')
  <> Rsum (map (magnitudeAt s') (nonPmlCells s')) / INR (length (nonPmlCells s')).
Proof.
  intros s s'.
  assert (Hi : "hard"%string <> EmptyString) by discriminate.
  assert (He : "ex"%string <> EmptyString) by discriminate.
  destruct (sourceSolver_members 4 "hard" "ex" ltac:(lia) Hi He)
    as (_ & _ & _ & _ & _ & _ & Hp & _ & _ & _ & Hin).
  fold s in Hp, Hin.
  destruct (advance_shape (dt s) s) as [(F & _ & _ & L) _]. fold s' in F, L.
  assert (Ep : pmlMask s' = pmlMask s) by (apply frame_pmlMask, F).
  assert (El : length (instantaneous s') = 16%nat).
  { rewrite (lengths_instantaneous _ _ L), Hin. reflexivity. }
  assert (Hcells : nonPmlCells s' = [5; 6; 9; 10]%nat).
  { unfold nonPmlCells. rewrite Ep, El, Hp.
    change (Z.to_nat 4) with 4%nat. rewrite pmlMask_4. reflexivity. }
  split; [exact Hcells|]. split; [exact El|].
  pose proof (advance_mean (dt s) s) as Hmean. cbv zeta in Hmean. fold s' in Hmean.
  rewrite Hmean, Hcells, El.
  assert (Hp5 : maskAt (pmlMask s) (1 * Z.to_nat 4 + 1) = false).
  { rewrite Hp. change (Z.to_nat 4) with 4%nat. rewrite pmlMask_4. reflexivity. }
  pose proof (sourceSolver_single 4 "hard" "ex" (dt s) ltac:(lia) Hi He Hp5) as Hc.
  cbv zeta in Hc. fold s s' in Hc.
  change (1 * Z.to_nat 4 + 1)%nat with 5%nat in Hc.
  assert (Hex : get (ex s') 5 = 1) by exact (proj1 (cellAt_values _ _ _ _ _ Hc)).
  assert (H5 : 1 <= magnitudeAt s' 5).
  { unfold magnitudeAt. rewrite Hex.
    rewrite <- sqrt_1 at 1. apply sqrt_le_1_alt.
    pose proof (Rle_0_sqr (get (ey s') 5)) as Hsq. unfold Rsqr in Hsq. lra. }
  assert (Hpos : forall i, 0 <= magnitudeAt s' i) by (intros i; apply sqrt_pos).
  pose proof (Hpos 6%nat). pose proof (Hpos 9%nat). pose proof (Hpos 10%nat).
  simpl. lra.
Qed.
Lemma smallMetalDisc_covers :
  coversCell (Vec2.mk 0 0) 1 1 smallMetalDisc 1 1 = true.
Proof.
  unfold coversCell, smallMetalDisc, sampleAt, insideCircle. simpl.
  rewrite Rmax_right by lra.
  apply andb_true_iff. split.
  - apply negb_true_iff, Rleb_false. lra.
  - apply Rleb_true. lra.
Qed.

Lemma metalSolver_members :
  let s := metalSolver in
  nx s = 3%nat /\ ny s = 3%nat /\ time s = 0 /\
  sources s = [cwEntry 3 "soft" "hz"] /\
  hz s = newArray 9 /\
  maskAt (metalMask s) 4 = true.
Proof.
  assert (Hi : "soft"%string <> EmptyString) by discriminate.
  assert (He : "hz"%string <> EmptyString) by discriminate.
  destruct (sourceSolver_members 3 "soft" "hz" ltac:(lia) Hi He)
    as (Hnx & Hny & Hd & Ht & Hs & _ & _ & _ & _ & Hhz & _).
  destruct (setBarrierFromShapes_members [smallMetalDisc] (sourceSolver 3 "soft" "hz"))
    as (F & _ & Es & Et & _ & _ & Ez).
  cbv zeta. unfold metalSolver.
  destruct (frame_nx _ _ F) as [Enx Eny].
  rewrite Enx, Eny, Es, Et, Ez, Hnx, Hny, Ht, Hs, Hhz.
  repeat split; try reflexivity.
  pose proof (setBarrierFromShapes_cell (sourceSolver 3 "soft" "hz") [smallMetalDisc] 1 1)
    as H. cbv zeta in H.
  rewrite Hnx, Hny, Hd in H.
  change (Z.to_nat 3) with 3%nat in H.
  unfold squareDomain in H. simpl Domain.worldSize in H. simpl Domain.origin in H.
  simpl Vec2.x in H. simpl Vec2.y in H.
  change (IZR (3 - 1)) with 2 in H.
  assert (Hc : cellSize 2 3 = 1).
  { rewrite cellSize_eq by lia. simpl. lra. }
  rewrite Hc in H.
  specialize (H ltac:(lra) ltac:(lra) ltac:(lia) ltac:(lia) ltac:(discriminate)).
  unfold lastCovering in H. simpl rev in H. simpl find in H.
  rewrite smallMetalDisc_covers in H.
  unfold cellOf in H. injection H as _ _ Hm. exact Hm.
Qed.

(** C6.  Hz is not zero at a metal cell that holds a source: on a grid of
    3 by 3 whose centre cell 4 is metal and holds a continuous-wave source,
    one advance from the fresh solver leaves Ex and Ey zero at the cell but
    Hz equal to 1, the value the injection into Hz adds after the metal cells
    were zeroed. *)
Theorem metal_source_cell_keeps_hz :
  let s := metalSolver in
  let s' := EMSolver2D.advance (EMSolver2D.dt s) s in
  EMSolver2D.sources s = [cwEntry 3 "soft" "hz"] /\
  maskAt (EMSolver2D.metalMask s) 4 = true /\
  maskAt (EMSolver2D.metalMask s') 4 = true /\
  get (EMSolver2D.ex s') 4 = 0 /\
  get (EMSolver2D.ey s') 4 = 0 /\
  get (EMSolver2D.hz s') 4 = 1.
Proof.
  intros s s'.
  destruct metalSolver_members as (Hnx & Hny & Ht & Hs & Hhz & Hm).
  fold s in Hnx, Hny, Ht, Hs, Hhz, Hm.
  destruct (advance_metal_cell (dt s) s 4 Hm) as (Hex & Hey & H0 & _).
  fold s' in Hex, Hey.
  destruct (advance_shape (dt s) s) as [(_ & I & _) _]. fold s' in I.
  assert (Em : metalMask s' = metalMask s) by (unfold inputs in I; congruence).
  pose proof (advance_skipped_source (dt s) s (cwEntry 3 "soft" "hz") 1 1) as A.
  cbv zeta in A. rewrite Hnx, Hny in A.
  change (1 * 3 + 1)%nat with 4%nat in A.
  assert (Hlen : (4 < length (hz s))%nat).
  { rewrite Hhz. unfold newArray. rewrite repeat_length. lia. }
  assert (Hoff : offEdge 3 3 1 1) by (unfold offEdge; lia).
  destruct (A Hs eq_refl Hoff (or_introl Hm) Hlen) as (_ & _ & Hz).
  fold s' in Hz.
  split; [exact Hs|]. split; [exact Hm|]. split; [rewrite Em; exact Hm|].
  split; [exact Hex|]. split; [exact Hey|].
  rewrite Hz, Ht. destruct (cellAt_values _ _ _ _ _ H0) as (_ & _ & Hz0).
  rewrite Hz0. destruct (cw_signal_one 3 "soft" "hz") as [_ E]. rewrite E. lra.
Qed.
End InjectionAndStatistics.
